(** * Angle compensation of the SICK scanner driver

    A shallow embedding of [driver/src/helper/angle_compensator.cpp]:
    the two compensation formulas [compensateAngleInRad] and
    [compensateAngleInDeg], the reply parser [parseAsciiReply] and the
    dispatcher [parseReply] with its binary-to-text conversion.

    Conventions of the embedding.
    - [std::string] is [string]; [std::vector<unsigned char>] is
      [list byte]; a [const char*] argument is a [string] that is read
      up to its first NUL character ([c_str]).
    - Integers are [Z] with the wrap-around of their C type written
      out.  The data model is LP64: [int] has 32 bits, [long] and
      [unsigned long] have 64.
    - [double] is idealised as [R]: a decimal literal denotes its
      decimal value and the operations are the exact ones.  Rounding is
      outside the model.
    - A member function takes the object ([self]) and gives back an
      [outcome]: a normal return with the return code and the new
      object, or an exception together with the object as it was left.
    - The locals [ampl10000th], [phase10000th], [offset10000th] of
      [parseAsciiReply] are declared without an initialiser.  What is
      read from them when they were never assigned is not determined by
      the program; the embedding takes these contents as the explicit
      argument [indet], and the theorems quantify over it. *)

From Stdlib Require Import ZArith List Bool Ascii String Strings.Byte Lia.
From Stdlib Require Import Reals Lra QArith Qreals Machin.
Import ListNotations.

Local Open Scope string_scope.
Local Open Scope Z_scope.

(** ** Machine integers *)

Module Int.

(** Value of a [w]-bit unsigned integer after reduction. *)
Definition to_unsigned (w x : Z) : Z := x mod 2 ^ w.

(** Conversion of an unsigned [w]-bit pattern [u] (0 <= u < 2^w) to
    the signed type of the same width: the cast [(int16_t)u] or
    [(int32_t)u]. *)
Definition to_signed (w u : Z) : Z :=
  if u <? 2 ^ (w - 1) then u else u - 2 ^ w.

Definition LONG_MIN : Z := - 2 ^ 63.
Definition LONG_MAX : Z := 2 ^ 63 - 1.
Definition ULONG_MAX : Z := 2 ^ 64 - 1.

(** [int sLen = replyVec.size()]: a [size_t] narrowed to [int]. *)
Definition int_of_size (n : nat) : Z :=
  to_signed 32 (to_unsigned 32 (Z.of_nat n)).

(** A [long] written through an [unsigned long*]. *)
Definition ulong_of_long (v : Z) : Z := to_unsigned 64 v.

End Int.

(** ** The C and C++ library functions the parser calls *)

Module Libc.

Definition NUL : ascii := Ascii.zero.

Definition code (c : ascii) : Z := Z.of_N (N_of_ascii c).

(** [isspace] in the C locale: space, and HT, LF, VT, FF, CR. *)
Definition isspace (c : ascii) : bool :=
  (code c =? 32) || ((9 <=? code c) && (code c <=? 13)).

Fixpoint skip_spaces (s : string) : string :=
  match s with
  | String c s' => if isspace c then skip_spaces s' else s
  | EmptyString => EmptyString
  end.

(** Value of a character as a digit: ['0'..'9'], then letters of
    either case from 10 on. *)
Definition digit_value (c : ascii) : option Z :=
  let n := code c in
  if (48 <=? n) && (n <=? 57) then Some (n - 48)
  else if (65 <=? n) && (n <=? 90) then Some (n - 55)
  else if (97 <=? n) && (n <=? 122) then Some (n - 87)
  else None.

Definition digit_in_base (base : Z) (c : ascii) : option Z :=
  match digit_value c with
  | Some d => if d <? base then Some d else None
  | None => None
  end.

(** The longest run of digits at the head of [s], as a number;
    [None] when [s] does not start with a digit ([seen] tells whether
    a digit was consumed already). *)
Fixpoint scan_digits (base acc : Z) (seen : bool) (s : string) : option Z :=
  match s with
  | String c s' =>
      match digit_in_base base c with
      | Some d => scan_digits base (acc * base + d) true s'
      | None => if seen then Some acc else None
      end
  | EmptyString => if seen then Some acc else None
  end.

(** An optional sign: whether it is a minus, and the rest. *)
Definition take_sign (s : string) : bool * string :=
  match s with
  | String c s' =>
      if (c =? "-")%char then (true, s')
      else if (c =? "+")%char then (false, s')
      else (false, s)
  | EmptyString => (false, s)
  end.

(** The optional ["0x"] or ["0X"] of base 16, taken only when a
    hexadecimal digit follows it. *)
Definition take_hex_prefix (s : string) : string :=
  match s with
  | String c0 (String c1 (String c2 s')) =>
      if (c0 =? "0")%char && ((c1 =? "x")%char || (c1 =? "X")%char)
      then match digit_in_base 16 c2 with
           | Some _ => String c2 s'
           | None => s
           end
      else s
  | _ => s
  end.

(** What [strtoul] reports: no conversion at all, a value out of
    the range of [unsigned long] ([ERANGE]), or the value. *)
Inductive strtoul_result : Type :=
| NoConversion
| RangeError
| Converted (v : Z).

(** [strtoul(s, &end, 16)]. *)
Definition strtoul16 (s : string) : strtoul_result :=
  let '(neg, s1) := take_sign (skip_spaces s) in
  match scan_digits 16 0 false (take_hex_prefix s1) with
  | None => NoConversion
  | Some m =>
      if Int.ULONG_MAX <? m then RangeError
      else Converted (if neg then Int.to_unsigned 64 (- m) else m)
  end.

(** The exceptions of [std::stoul]. *)
Inductive exception : Type :=
| invalid_argument
| out_of_range.

(** [std::stoul(s, nullptr, 16)]. *)
Definition stoul16 (s : string) : exception + Z :=
  match strtoul16 s with
  | NoConversion => inl invalid_argument
  | RangeError => inl out_of_range
  | Converted v => inr v
  end.

(** The [long] that [sscanf(s, "%ld", p)] stores, or [None] on a
    matching failure (nothing is stored then).  A number beyond the
    range of [long] is stored as [LONG_MIN] or [LONG_MAX], as
    [strtol] gives it. *)
Definition sscanf_ld (s : string) : option Z :=
  let '(neg, s1) := take_sign (skip_spaces s) in
  match scan_digits 10 0 false s1 with
  | None => None
  | Some m =>
      let v := if neg then - m else m in
      Some (Z.max Int.LONG_MIN (Z.min Int.LONG_MAX v))
  end.

(** One digit of [%X]. *)
Definition hex_char (d : Z) : ascii :=
  if d <? 10 then ascii_of_N (Z.to_N (48 + d)) else ascii_of_N (Z.to_N (55 + d)).

(** [sprintf(szTmp, "%02X", b)] for an [unsigned char]. *)
Definition sprintf_02X (b : byte) : string :=
  let n := Z.of_N (Byte.to_N b) in
  String (hex_char (n / 16)) (String (hex_char (n mod 16)) EmptyString).

(** The characters of a C string: those before the first NUL. *)
Fixpoint c_str (s : string) : string :=
  match s with
  | String c s' => if (c =? NUL)%char then EmptyString else String c (c_str s')
  | EmptyString => EmptyString
  end.

(** Characters of a [std::string], reversed: the token that
    [getline] is building. *)
Definition rev_string (acc : list ascii) : string :=
  string_of_list_ascii (List.rev acc).

(** The loop [while (std::getline(ss, token, delim)) cont.push_back(token)].
    [getline] succeeds when it meets the delimiter, or when it meets
    the end of the stream after extracting at least one character;
    [tok] is the token extracted so far, last character first. *)
Fixpoint getline_loop (delim : ascii) (tok : list ascii) (s : string) : list string :=
  match s with
  | String c s' =>
      if (c =? delim)%char
      then rev_string tok :: getline_loop delim [] s'
      else getline_loop delim (c :: tok) s'
  | EmptyString =>
      match tok with
      | [] => []
      | _ :: _ => [rev_string tok]
      end
  end.

End Libc.

Import Libc.

(** ** The compensator object *)

(** Modelled from the spec: the class declaration
    (sick_scan/helper/angle_compensator.h) is not among the sources.
    The members are the five the member functions read and write, each
    a [double] (section 3 of the specification: amplitude, phase and
    offset, the last two kept in degrees and in radians). *)
Record AngleCompensator : Type := mkAngleCompensator {
  amplCorr : R;
  phaseCorrInDeg : R;
  offsetCorrInDeg : R;
  phaseCorrInRad : R;
  offsetCorrInRad : R
}.

(** [M_PI] of <math.h>, at the value of its decimal literal. *)
Definition M_PI : R := 3.14159265358979323846%R.

(** Compensate a raw angle given in radians. *)
Definition compensateAngleInRad (self : AngleCompensator) (angleInRad : R) : R :=
  let deg2radFactor := 0.01745329252%R in
  let angleCompInRad :=
    (angleInRad
     + deg2radFactor * amplCorr self * sin (angleInRad + phaseCorrInRad self)
     + offsetCorrInRad self)%R in
  angleCompInRad.

(** Compensate a raw angle given in degrees.  The local
    [phaseCorrInRad] hides the member of the same name. *)
Definition compensateAngleInDeg (self : AngleCompensator) (angleInDeg : R) : R :=
  let deg2radFactor := 0.01745329252%R in
  let angleRawInRad := (deg2radFactor * angleInDeg)%R in
  let phaseCorrInRad := (deg2radFactor * phaseCorrInDeg self)%R in
  let angleCompInDeg :=
    (angleInDeg
     + amplCorr self * sin (angleRawInRad + phaseCorrInRad)
     + offsetCorrInDeg self)%R in
  angleCompInDeg.

(** ** Parsing the reply *)

(** How a member function ends. *)
Inductive outcome : Type :=
| Returned (retCode : Z) (self : AngleCompensator)
| Thrown (e : exception) (self : AngleCompensator).

(** The three integer locals of [parseAsciiReply]: an [int16_t], an
    [int32_t] and an [int16_t]. *)
Record CalibrationFrame : Type := mkFrame {
  ampl10000th : Z;
  phase10000th : Z;
  offset10000th : Z
}.

(** [cont[2+i][0]]: the first character of a token; for an empty
    [std::string] the terminating NUL. *)
Definition first_char (tok : string) : ascii :=
  match tok with
  | String c _ => c
  | EmptyString => NUL
  end.

(** One round of the loop over the value tokens: what [helperArr[i]]
    holds afterwards, [old] being what it held before. *)
Definition parse_value (tok : string) (old : Z) : exception + Z :=
  let ch := first_char tok in
  if (ch =? "+")%char || (ch =? "-")%char
  then match sscanf_ld tok with
       | Some v => inr (Int.ulong_of_long v)
       | None => inr old
       end
  else stoul16 tok.

(** [helperArr[i] = v]. *)
Fixpoint array_set (i : nat) (v : Z) (arr : list Z) : list Z :=
  match arr, i with
  | [], _ => []
  | _ :: rest, O => v :: rest
  | x :: rest, S i' => x :: array_set i' v rest
  end.

(** [for (int i = 0; i < 3; i++)], with [n] rounds left from index
    [i] on. *)
Fixpoint value_loop (n i : nat) (cont : list string) (helperArr : list Z)
  : exception + list Z :=
  match n with
  | O => inr helperArr
  | S n' =>
      match parse_value (nth (2 + i) cont EmptyString) (nth i helperArr 0) with
      | inl e => inl e
      | inr v => value_loop n' (S i) cont (array_set i v helperArr)
      end
  end.

(** The tokens pushed to [cont]: the C string [replyStr], cut at each
    space. *)
Definition split_reply (replyStr : string) : list string :=
  getline_loop " " [] (c_str replyStr).

(** The statements of [parseAsciiReply] up to the end of the [if]: the
    content of the three locals, or the exception that ended the
    function.  [indet] is what the locals hold before any
    assignment.  The probe [std::stoul("fffefffe", nullptr, 16)] that
    precedes the [if] is kept: it is a call that may throw. *)
Definition decode_locals (indet : CalibrationFrame) (replyStr : string)
  : exception + CalibrationFrame :=
  let cont := split_reply replyStr in
  match stoul16 "fffefffe" with
  | inl e => inl e
  | inr _ =>
      if Z.of_nat (List.length cont) =? 5
      then match value_loop 3 0 cont [0; 0; 0] with
           | inl e => inl e
           | inr helperArr =>
               inr {| ampl10000th := Int.to_signed 16 (Z.land 0xFFFF (nth 0 helperArr 0));
                      phase10000th := Int.to_signed 32 (Z.land 0xFFFFFFFF (nth 1 helperArr 0));
                      offset10000th := Int.to_signed 16 (Z.land 0xFFFF (nth 2 helperArr 0)) |}
           end
      else inr indet
  end.

(** The five assignments that end [parseAsciiReply]. *)
Definition store_calibration (f : CalibrationFrame) : AngleCompensator :=
  let amplCorr := (1 / 10000 * IZR (ampl10000th f))%R in
  let phaseCorrInDeg := (1 / 10000 * IZR (phase10000th f))%R in
  let offsetCorrInDeg := (1 / 10000 * IZR (offset10000th f))%R in
  let offsetCorrInRad := (offsetCorrInDeg / 180 * M_PI)%R in
  let phaseCorrInRad := (phaseCorrInDeg / 180 * M_PI)%R in
  {| amplCorr := amplCorr;
     phaseCorrInDeg := phaseCorrInDeg;
     offsetCorrInDeg := offsetCorrInDeg;
     phaseCorrInRad := phaseCorrInRad;
     offsetCorrInRad := offsetCorrInRad |}.

(** Parse an ASCII reply. *)
Definition parseAsciiReply (indet : CalibrationFrame) (replyStr : string)
    (self : AngleCompensator) : outcome :=
  let retCode := 0 in
  match decode_locals indet replyStr with
  | inl e => Thrown e self
  | inr f => Returned retCode (store_calibration f)
  end.

(** The state of the conversion loop of [parseReply]. *)
Record conversion : Type := mkConversion {
  conv_i : Z;
  conv_relCnt : Z;
  conv_stmp : string
}.

(** One round of [for (int i = 0; i < sLen; i++)]. *)
Definition conversion_step (replyVec : list byte) (offset : Z) (st : conversion)
  : conversion :=
  let i := conv_i st in
  let b := nth (Z.to_nat i) replyVec x00 in
  if i <? offset
  then {| conv_i := i + 1;
          conv_relCnt := conv_relCnt st;
          conv_stmp := (conv_stmp st ++ String (ascii_of_byte b) EmptyString)%string |}
  else
    let relCnt := conv_relCnt st + 1 in
    let stmp := (conv_stmp st ++ sprintf_02X b)%string in
    let stmp :=
      if (relCnt <? 12) && (relCnt mod 4 =? 0) then (stmp ++ " ")%string else stmp in
    {| conv_i := i + 1; conv_relCnt := relCnt; conv_stmp := stmp |}.

(** The loop after [k] rounds. *)
Definition conversion_run (replyVec : list byte) (offset : Z) (k : nat) : conversion :=
  Nat.iter k (conversion_step replyVec offset)
    {| conv_i := 0; conv_relCnt := 0; conv_stmp := EmptyString |}.

(** The binary branch of [parseReply]: the text built in [stmp].  The
    loop runs [sLen] times, not at all when [sLen] is negative;
    [offset] is read inside the loop only, where [sLen - 12] does not
    overflow. *)
Definition binary_to_ascii (replyVec : list byte) : string :=
  let sLen := Int.int_of_size (List.length replyVec) in
  let offset := sLen - 12 in
  conv_stmp (conversion_run replyVec offset (Z.to_nat sLen)).

(** Parse the reply to the command MCAngleCompSin.  [stmp.c_str()] is
    handed over as it is: [parseAsciiReply] reads its argument as a C
    string. *)
Definition parseReply (indet : CalibrationFrame) (isBinary : bool)
    (replyVec : list byte) (self : AngleCompensator) : outcome :=
  let retCode := 0 in
  let stmp := if isBinary then binary_to_ascii replyVec else EmptyString in
  match parseAsciiReply indet stmp self with
  | Returned _ self' => Returned retCode self'
  | Thrown e self' => Thrown e self'
  end.

(** The vector the testbed fills from a text: one byte per character. *)
Definition bytes_of_string (s : string) : list byte := list_byte_of_string s.

(** ** Objects and inputs of the testbed *)

(** The data bytes of the binary reply in [testbed]. *)
Definition dataArr : list byte :=
  [x00; x00; x07; x65; xff; xfc; xc9; xb9; xff; xff; xff; x0b].

(** The binary reply of the testbed: the command echo, then the data. *)
Definition testVec_binary : list byte :=
  (bytes_of_string "sRA MCAngleCompSin " ++ dataArr)%list.

Definition reply_hex : string := "sRA MCAngleCompSin 765 FFFCC9B9 FFFFFF0B".
Definition reply_dec : string := "sRA MCAngleCompSin +1893 -210503 -245".

(** The values both replies of the testbed carry. *)
Definition frame_testbed : CalibrationFrame := mkFrame 1893 (-210503) (-245).

Definition frame_zero : CalibrationFrame := mkFrame 0 0 0.

(** ** What counts as a reported failure

    The caller of a member function learns of a failure through an
    exception or through a return code other than 0. *)
Definition reports_failure (o : outcome) : Prop :=
  match o with
  | Returned retCode _ => retCode <> 0
  | Thrown _ _ => True
  end.

(** The object a member function leaves behind. *)
Definition object_after (o : outcome) : AngleCompensator :=
  match o with
  | Returned _ self => self
  | Thrown _ self => self
  end.

(** An object calibrated by the testbed's reply. *)
Definition calibrated : AngleCompensator := store_calibration frame_testbed.

(** A reply of four tokens. *)
Definition reply_short : string := "sRA MCAngleCompSin 1 2".

(** A reply that sets the amplitude to 1 and the phase and the offset
    to 0, and the object it leaves. *)
Definition reply_unit : string := "sRA MCAngleCompSin +10000 +0 +0".
Definition unit_amplitude : AngleCompensator := store_calibration (mkFrame 10000 0 0).

(** ** Rational partial sums for pi

    The partial sums of the series pi/4 = 2 atan(1/3) + atan(1/7),
    computed over [Q]; they enclose pi closely enough to tell it from
    the decimal constants of the program. *)

Fixpoint Qpow (q : Q) (n : nat) : Q :=
  match n with
  | O => 1%Q
  | S i => (q * Qpow q i)%Q
  end.

Definition machin_term (k : nat) : Q :=
  (Qpow (-1) k * (2 * Qpow (1 # 3) (2 * k + 1) + Qpow (1 # 7) (2 * k + 1))
   / inject_Z (Z.of_nat (2 * k + 1)))%Q.

Fixpoint machin_sum (n : nat) : Q :=
  match n with
  | O => machin_term O
  | S i => (machin_sum i + machin_term n)%Q
  end.

(** ** The converted text, described on the list of bytes *)

(** The bytes as raw characters. *)
Definition raw_chars (bs : list byte) : string := string_of_list_byte bs.

(** The bytes as two hexadecimal digits each, one after the other. *)
Fixpoint hex_group (bs : list byte) : string :=
  match bs with
  | [] => EmptyString
  | b :: rest => (sprintf_02X b ++ hex_group rest)%string
  end.

(** What follows the [relCnt]-th formatted byte. *)
Definition separator (relCnt : Z) : string :=
  if (relCnt <? 12) && (relCnt mod 4 =? 0) then " " else EmptyString.

(** What the loop appends for the bytes [bs] once it formats them,
    [relCnt] bytes having been formatted before. *)
Fixpoint hex_spaced (relCnt : Z) (bs : list byte) : string :=
  match bs with
  | [] => EmptyString
  | b :: rest =>
      (sprintf_02X b ++ separator (relCnt + 1) ++ hex_spaced (relCnt + 1) rest)%string
  end.

(** The text for a reply of at least 12 bytes: the leading bytes as
    they are, then the last twelve in three groups of four bytes. *)
Definition converted_text (replyVec : list byte) : string :=
  let n := List.length replyVec in
  (raw_chars (firstn (n - 12) replyVec)
   ++ hex_group (firstn 4 (skipn (n - 12) replyVec)) ++ " "
   ++ hex_group (firstn 4 (skipn (n - 8) replyVec)) ++ " "
   ++ hex_group (skipn (n - 4) replyVec))%string.

(** The text for a reply of fewer than 12 bytes: groups of four
    bytes, a space after each complete group. *)
Fixpoint hex_by_four (bs : list byte) : string :=
  match bs with
  | b0 :: b1 :: b2 :: b3 :: rest =>
      (hex_group [b0; b1; b2; b3] ++ " " ++ hex_by_four rest)%string
  | _ => hex_group bs
  end.

(** A digit of upper-case hexadecimal notation. *)
Definition is_upper_hex (c : ascii) : bool :=
  ((48 <=? code c) && (code c <=? 57)) || ((65 <=? code c) && (code c <=? 70)).

Fixpoint all_chars (p : ascii -> bool) (s : string) : bool :=
  match s with
  | String c s' => p c && all_chars p s'
  | EmptyString => true
  end.

Fixpoint count_char (c : ascii) (s : string) : nat :=
  match s with
  | String c' s' => ((if (c' =? c)%char then 1 else 0) + count_char c s')%nat
  | EmptyString => O
  end.

(** The claim C6 reads the converted text as three groups of 4, 8 and
    4 hexadecimal characters after the raw prefix. *)
Definition groups_4_8_4 (replyVec : list byte) (text : string) : Prop :=
  exists g1 g2 g3 : string,
    text = (raw_chars (firstn (List.length replyVec - 12) replyVec)
            ++ g1 ++ " " ++ g2 ++ " " ++ g3)%string
    /\ String.length g1 = 4%nat
    /\ String.length g2 = 8%nat
    /\ String.length g3 = 4%nat.

(** A reply of four bytes in binary mode. *)
Definition four_bytes : list byte := [x12; x34; x56; x78].

(** ** Literals and their values, as the claims read them *)

(** Value of the digits [ds], most significant first, in positional
    notation. *)
Fixpoint positional (base : Z) (ds : list Z) : Z :=
  match ds with
  | [] => 0
  | d :: rest => d * base ^ Z.of_nat (List.length rest) + positional base rest
  end.

(** The digits of [s] when every character of it is a digit. *)
Fixpoint digits_of (base : Z) (s : string) : option (list Z) :=
  match s with
  | EmptyString => Some []
  | String c s' =>
      match digit_in_base base c, digits_of base s' with
      | Some d, Some ds => Some (d :: ds)
      | _, _ => None
      end
  end.

(** The number a non-empty string of digits denotes. *)
Definition numeral (base : Z) (s : string) : option Z :=
  match s with
  | EmptyString => None
  | String _ _ => option_map (positional base) (digits_of base s)
  end.

(** Keep a value that the C type holds. *)
Definition in_range (lo hi : Z) (v : option Z) : option Z :=
  match v with
  | Some x => if (lo <=? x) && (x <=? hi) then Some x else None
  | None => None
  end.

(** The value of a well-formed value token: a sign followed by
    decimal digits, a [long]; or hexadecimal digits only, an
    [unsigned long]. *)
Definition literal_value (tok : string) : option Z :=
  match tok with
  | EmptyString => None
  | String c rest =>
      if (c =? "+")%char
      then in_range Int.LONG_MIN Int.LONG_MAX (numeral 10 rest)
      else if (c =? "-")%char
      then in_range Int.LONG_MIN Int.LONG_MAX (option_map Z.opp (numeral 10 rest))
      else in_range 0 Int.ULONG_MAX (numeral 16 tok)
  end.

(** The syntax alone: a signed decimal or an unsigned hexadecimal
    integer. *)
Definition literal_syntax (tok : string) : bool :=
  match tok with
  | EmptyString => false
  | String c rest =>
      if (c =? "+")%char || (c =? "-")%char
      then match numeral 10 rest with Some _ => true | None => false end
      else match numeral 16 tok with Some _ => true | None => false end
  end.

(** The low [w] bits of [v] read as a two's-complement number: bit
    [w-1] weighs [- 2^(w-1)]. *)
Definition twos_complement (w v : Z) : Z :=
  v mod 2 ^ (w - 1) - (if Z.testbit v (w - 1) then 2 ^ (w - 1) else 0).

(** A character with which the text of a number can begin for the
    parser: a sign, white space, or a hexadecimal digit. *)
Definition number_head (c : ascii) : bool :=
  (c =? "+")%char || (c =? "-")%char || isspace c
  || match digit_in_base 16 c with Some _ => true | None => false end.

(** Replies with a value token that is not a number. *)
Definition reply_bad_decimal : string := "sRA MCAngleCompSin +x 0 0".
Definition reply_bad_hex_tail : string := "sRA MCAngleCompSin 1G 0 0".
Definition reply_bad_hex_head : string := "sRA MCAngleCompSin G1 0 0".

(** ** The object between calls *)

(** The radian members are the degree members converted with
    [M_PI / 180], as the last two assignments of [parseAsciiReply]
    leave them. *)
Definition units_consistent (self : AngleCompensator) : Prop :=
  phaseCorrInRad self = (phaseCorrInDeg self / 180 * M_PI)%R
  /\ offsetCorrInRad self = (offsetCorrInDeg self / 180 * M_PI)%R.

(** The test the parser makes on the first character of a value
    token. *)
Definition is_sign (c : ascii) : bool := (c =? "+")%char || (c =? "-")%char.

(** A sign that no decimal digit follows. *)
Definition sign_without_digit (tok : string) : bool :=
  match tok with
  | EmptyString => false
  | String c rest =>
      is_sign c
      && match digit_in_base 10 (first_char rest) with
         | Some _ => false
         | None => true
         end
  end.

(** Replies used as instances below. *)
Definition reply_other_header : string := "x y 765 FFFCC9B9 FFFFFF0B".
Definition reply_signs_only : string := "sRA MCAngleCompSin + -x +-1".
Definition reply_huge_hex : string := "sRA MCAngleCompSin 10000000000000000 0 0".

(** ** Bytes as numbers, tokens as text *)

Definition byte_value (b : byte) : Z := Z.of_N (Byte.to_N b).

(** The number the bytes [bs] are, most significant byte first. *)
Fixpoint big_endian (bs : list byte) : Z :=
  match bs with
  | [] => 0
  | b :: rest => byte_value b * 256 ^ Z.of_nat (List.length rest) + big_endian rest
  end.

(** A character that ends neither a token nor the C string. *)
Definition token_char (c : ascii) : bool :=
  negb (c =? " ")%char && negb (c =? NUL)%char.

(** The text without the delimiter that ends it, when one does. *)
Fixpoint chop_delim (delim : ascii) (s : string) : string :=
  match s with
  | EmptyString => EmptyString
  | String c EmptyString => if (c =? delim)%char then EmptyString else s
  | String c s' => String c (chop_delim delim s')
  end.

(** ** The testbed *)

(** One line of the table of the testbed, as the three numbers handed
    to [fprintf]: input, output and correction. *)
Record table_row : Type := mkRow {
  row_input : R;
  row_output : R;
  row_correction : R
}.

(** One round of [for (int i = 0; i <= 359; i++)]. *)
Definition testbed_row (ac : AngleCompensator) (i : Z) : table_row :=
  let rawAngle := IZR i in
  let compAngle := compensateAngleInDeg ac rawAngle in
  let compRadAngle := compensateAngleInRad ac (rawAngle / 180 * M_PI)%R in
  let checkAngle := (compRadAngle / M_PI * 180)%R in
  {| row_input := rawAngle;
     row_output := compAngle;
     row_correction := (compAngle - rawAngle)%R |}.

(** The next call on the object a call returned; an exception ends
    the sequence. *)
Definition and_then (o : outcome) (next : AngleCompensator -> outcome) : outcome :=
  match o with
  | Returned _ self => next self
  | Thrown e self => Thrown e self
  end.

(** [testbed]: the four parser calls on the local object [ac], then
    the 360 lines of the table, or the exception that escapes.  [ac] is
    the object as its constructor leaves it; each call has locals of
    its own.  Opening, writing and closing the file is outside the
    model. *)
Definition testbed (indet1 indet2 indet3 indet4 : CalibrationFrame)
    (ac : AngleCompensator) : exception + list table_row :=
  match
    and_then (parseReply indet1 true testVec_binary ac) (fun ac1 =>
    and_then (parseReply indet2 false (bytes_of_string reply_hex) ac1) (fun ac2 =>
    and_then (parseAsciiReply indet3 reply_hex ac2) (fun ac3 =>
    parseAsciiReply indet4 reply_dec ac3)))
  with
  | Returned _ ac' => inr (List.map (fun i => testbed_row ac' (Z.of_nat i)) (List.seq 0 360))
  | Thrown e _ => inl e
  end.

(** * Properties *)

(** ** The parser, case by case *)

Lemma stoul16_probe : stoul16 "fffefffe" = inr 4294901758.
Proof. reflexivity. Qed.

Lemma decode_locals_other_count (indet : CalibrationFrame) (replyStr : string) :
  List.length (split_reply replyStr) <> 5%nat ->
  decode_locals indet replyStr = inr indet.
Proof.
  intros Hlen. unfold decode_locals. rewrite stoul16_probe.
  destruct (Z.eqb_spec (Z.of_nat (List.length (split_reply replyStr))) 5) as [E|E].
  - exfalso. apply Hlen. lia.
  - reflexivity.
Qed.

Lemma decode_locals_five (indet : CalibrationFrame) (replyStr : string)
    (h0 h1 t0 t1 t2 : string) :
  split_reply replyStr = [h0; h1; t0; t1; t2] ->
  decode_locals indet replyStr =
    match parse_value t0 0 with
    | inl e => inl e
    | inr v0 =>
        match parse_value t1 0 with
        | inl e => inl e
        | inr v1 =>
            match parse_value t2 0 with
            | inl e => inl e
            | inr v2 =>
                inr {| ampl10000th := Int.to_signed 16 (Z.land 0xFFFF v0);
                       phase10000th := Int.to_signed 32 (Z.land 0xFFFFFFFF v1);
                       offset10000th := Int.to_signed 16 (Z.land 0xFFFF v2) |}
            end
        end
    end.
Proof.
  intros Hsplit. unfold decode_locals. rewrite stoul16_probe, Hsplit.
  cbn [List.length Z.of_nat]. cbn [Z.eqb Pos.of_succ_nat Pos.succ Pos.eqb].
  cbn [value_loop nth Nat.add array_set].
  destruct (parse_value t0 0) as [e|v0]; [reflexivity|].
  destruct (parse_value t1 0) as [e|v1]; [reflexivity|].
  destruct (parse_value t2 0) as [e|v2]; reflexivity.
Qed.

Lemma parseAsciiReply_returns_zero (indet : CalibrationFrame) (replyStr : string)
    (self self' : AngleCompensator) (retCode : Z) :
  parseAsciiReply indet replyStr self = Returned retCode self' -> retCode = 0.
Proof.
  unfold parseAsciiReply.
  destruct (decode_locals indet replyStr); intros H; inversion H; reflexivity.
Qed.

Lemma parseReply_returns_zero (indet : CalibrationFrame) (isBinary : bool)
    (replyVec : list byte) (self self' : AngleCompensator) (retCode : Z) :
  parseReply indet isBinary replyVec self = Returned retCode self' -> retCode = 0.
Proof.
  unfold parseReply.
  destruct (parseAsciiReply indet _ self); intros H; inversion H; reflexivity.
Qed.

(** [parseReply] ends as the call of [parseAsciiReply] it makes. *)
Lemma parseReply_as_parseAsciiReply (indet : CalibrationFrame) (isBinary : bool)
    (replyVec : list byte) (self : AngleCompensator) :
  parseReply indet isBinary replyVec self =
  parseAsciiReply indet (if isBinary then binary_to_ascii replyVec else EmptyString) self.
Proof.
  unfold parseReply.
  destruct (parseAsciiReply indet _ self) as [rc s'|e s'] eqn:E; [|reflexivity].
  now rewrite (parseAsciiReply_returns_zero _ _ _ _ _ E).
Qed.

Lemma store_calibration_amplCorr (f g : CalibrationFrame) :
  store_calibration f = store_calibration g -> ampl10000th f = ampl10000th g.
Proof.
  intros H. apply (f_equal amplCorr) in H. cbn in H.
  apply eq_IZR. lra.
Qed.

Lemma parseAsciiReply_other_count (indet : CalibrationFrame) (replyStr : string)
    (self : AngleCompensator) :
  List.length (split_reply replyStr) <> 5%nat ->
  parseAsciiReply indet replyStr self = Returned 0 (store_calibration indet).
Proof.
  intros Hlen. unfold parseAsciiReply.
  now rewrite decode_locals_other_count.
Qed.

Lemma decode_reply_hex (indet : CalibrationFrame) :
  decode_locals indet reply_hex = inr frame_testbed.
Proof. reflexivity. Qed.

Lemma decode_reply_dec (indet : CalibrationFrame) :
  decode_locals indet reply_dec = inr frame_testbed.
Proof. reflexivity. Qed.

Lemma parse_reply_unit (indet : CalibrationFrame) (self : AngleCompensator) :
  parseAsciiReply indet reply_unit self = Returned 0 unit_amplitude.
Proof. reflexivity. Qed.

(** ** C1: the dispatcher in ASCII mode *)

(** C1 (a defect of the code).  With [isBinary = false], [parseReply]
    never reads [replyVec]: [stmp] stays empty, so the call is
    [parseAsciiReply("")] whatever the payload.  For the ASCII reply of
    the testbed the object is then filled from the unassigned locals,
    whereas [parseAsciiReply] on the payload text stores 1893, -210503
    and -245: with locals that hold 0 the two objects differ. *)
Theorem parseReply_ascii_ignores_payload :
  (forall indet replyVec self,
      parseReply indet false replyVec self = parseAsciiReply indet EmptyString self)
  /\ (forall indet self,
         parseReply indet false (bytes_of_string reply_hex) self
         = Returned 0 (store_calibration indet))
  /\ (forall indet self,
         parseAsciiReply indet reply_hex self
         = Returned 0 (store_calibration frame_testbed))
  /\ (forall self,
         parseReply frame_zero false (bytes_of_string reply_hex) self
         <> parseAsciiReply frame_zero reply_hex self).
Proof.
  assert (A : forall indet replyVec self,
             parseReply indet false replyVec self
             = Returned 0 (store_calibration indet)).
  { intros. rewrite parseReply_as_parseAsciiReply.
    apply parseAsciiReply_other_count. cbn. discriminate. }
  assert (B : forall indet self,
             parseAsciiReply indet reply_hex self
             = Returned 0 (store_calibration frame_testbed)).
  { intros. unfold parseAsciiReply. now rewrite decode_reply_hex. }
  split; [|split; [|split]].
  - intros. apply parseReply_as_parseAsciiReply.
  - intros. apply A.
  - exact B.
  - intros self. rewrite A, B. intros H.
    assert (E : store_calibration frame_zero = store_calibration frame_testbed)
      by congruence.
    apply store_calibration_amplCorr in E. discriminate E.
Qed.

(** ** C10: the return code *)

(** C10.  Whenever [parseAsciiReply] or [parseReply] returns normally,
    the return code is 0: this holds for every reply, well formed or
    not, so the return code never tells the caller of a decoding
    failure. *)
Theorem return_code_is_zero
    (indet : CalibrationFrame) (self self' : AngleCompensator) (retCode : Z) :
  (forall replyStr,
      parseAsciiReply indet replyStr self = Returned retCode self' -> retCode = 0)
  /\ (forall isBinary replyVec,
         parseReply indet isBinary replyVec self = Returned retCode self' -> retCode = 0).
Proof.
  split.
  - intros replyStr. apply parseAsciiReply_returns_zero.
  - intros isBinary replyVec. apply parseReply_returns_zero.
Qed.

Lemma return_code_is_zero_witness :
  parseAsciiReply frame_zero reply_short calibrated
    = Returned 0 (store_calibration frame_zero)
  /\ parseReply frame_zero true dataArr calibrated
    = Returned 0 (store_calibration frame_zero)
  /\ 0 = 0.
Proof.
  assert (E1 : parseAsciiReply frame_zero reply_short calibrated
               = Returned 0 (store_calibration frame_zero)) by reflexivity.
  assert (E2 : parseReply frame_zero true dataArr calibrated
               = Returned 0 (store_calibration frame_zero)) by reflexivity.
  split; [exact E1 | split; [exact E2 |]].
  exact (proj1 (return_code_is_zero frame_zero calibrated
                  (store_calibration frame_zero) 0) reply_short E1).
Defined.

(** ** C4: a reply that does not have five tokens *)

(** C4, as stated, fails on the code: the reply of four tokens
    ["sRA MCAngleCompSin 1 2"] is not reported as a failure, and the
    object calibrated before does not survive it when the unassigned
    locals hold 0. *)
Lemma malformed_frame_not_reported :
  List.length (split_reply reply_short) <> 5%nat
  /\ ~ reports_failure (parseAsciiReply frame_zero reply_short calibrated)
  /\ object_after (parseAsciiReply frame_zero reply_short calibrated) <> calibrated.
Proof.
  assert (E : parseAsciiReply frame_zero reply_short calibrated
              = Returned 0 (store_calibration frame_zero)) by reflexivity.
  split; [cbn; discriminate|]. rewrite E. split.
  - cbn. intros H. now apply H.
  - cbn [object_after]. unfold calibrated. intros H.
    apply store_calibration_amplCorr in H. discriminate H.
Qed.

(** C4, amended.  For every reply text that does not split on single
    spaces into exactly 5 tokens, [parseAsciiReply] reports no failure:
    it returns normally, with the return code 0 of a successful
    decoding. *)
Theorem other_token_count_returns_zero
    (indet : CalibrationFrame) (replyStr : string) (self : AngleCompensator) :
  List.length (split_reply replyStr) <> 5%nat ->
  exists self', parseAsciiReply indet replyStr self = Returned 0 self'.
Proof.
  intros Hlen. exists (store_calibration indet).
  now apply parseAsciiReply_other_count.
Qed.

Lemma other_token_count_returns_zero_witness :
  List.length (split_reply reply_short) <> 5%nat
  /\ exists self', parseAsciiReply frame_zero reply_short calibrated = Returned 0 self'.
Proof.
  assert (H : List.length (split_reply reply_short) <> 5%nat) by (cbn; discriminate).
  split; [exact H|].
  exact (other_token_count_returns_zero frame_zero reply_short calibrated H).
Defined.

(** ** C7: the two replies of the testbed *)

(** C7, as stated, fails on the code: the twelve data bytes alone
    convert to three tokens, so no value is decoded from them and the
    locals keep what they held (here 0), whereas the ASCII reply decodes
    to 1893, -210503 and -245. *)
Lemma data_bytes_alone_do_not_decode :
  binary_to_ascii dataArr = "00000765 FFFCC9B9 FFFFFF0B"
  /\ decode_locals frame_zero (binary_to_ascii dataArr) = inr frame_zero
  /\ decode_locals frame_zero reply_hex = inr frame_testbed
  /\ decode_locals frame_zero (binary_to_ascii dataArr)
     <> decode_locals frame_zero reply_hex.
Proof.
  split; [reflexivity|]. split; [reflexivity|]. split; [reflexivity|].
  intros H. assert (E : frame_zero = frame_testbed).
  { assert (E0 : decode_locals frame_zero (binary_to_ascii dataArr) = inr frame_zero)
      by reflexivity.
    rewrite decode_reply_hex in H. congruence. }
  discriminate E.
Qed.

(** C7, amended.  Decoding the ASCII reply
    ["sRA MCAngleCompSin 765 FFFCC9B9 FFFFFF0B"] yields the same three
    signed values as decoding the binary reply made of the bytes of
    ["sRA MCAngleCompSin "] followed by the twelve data bytes
    00 00 07 65 FF FC C9 B9 FF FF FF 0B, converted and then parsed:
    both give 1893, -210503 and -245, and [parseReply] in binary mode
    ends exactly as [parseAsciiReply] on the ASCII reply. *)
Theorem testbed_binary_and_hex_agree
    (indet : CalibrationFrame) (self : AngleCompensator) :
  binary_to_ascii testVec_binary = "sRA MCAngleCompSin 00000765 FFFCC9B9 FFFFFF0B"
  /\ decode_locals indet (binary_to_ascii testVec_binary) = inr frame_testbed
  /\ decode_locals indet reply_hex = inr frame_testbed
  /\ parseReply indet true testVec_binary self = parseAsciiReply indet reply_hex self.
Proof.
  assert (E : binary_to_ascii testVec_binary
              = "sRA MCAngleCompSin 00000765 FFFCC9B9 FFFFFF0B") by reflexivity.
  split; [exact E|]. split; [rewrite E; reflexivity|].
  split; [apply decode_reply_hex|].
  rewrite parseReply_as_parseAsciiReply. unfold parseAsciiReply.
  rewrite E, decode_reply_hex. reflexivity.
Qed.

(** ** The degree-to-radian factor and pi *)

Section PiBounds.

Local Open Scope R_scope.

Lemma Q2R_Qpow (q : Q) (n : nat) : Q2R (Qpow q n) = Q2R q ^ n.
Proof.
  induction n as [|n IH]; cbn [Qpow pow].
  - apply RMicromega.Q2R_1.
  - now rewrite Q2R_mult, IH.
Qed.

Lemma Q2R_machin_term (k : nat) : Q2R (machin_term k) = tg_alt PI_2_3_7_tg k.
Proof.
  unfold machin_term, tg_alt, PI_2_3_7_tg, Ratan_seq, Qdiv.
  rewrite !Q2R_mult, Q2R_plus, Q2R_mult, Q2R_inv.
  2:{ intros H. unfold Qeq in H. cbn in H. lia. }
  rewrite !Q2R_Qpow.
  replace (Q2R (inject_Z (Z.of_nat (2 * k + 1)))) with (INR (2 * k + 1)).
  2:{ unfold Q2R, inject_Z. cbn [Qnum Qden]. rewrite INR_IZR_INZ. field. }
  replace (Q2R (-1)) with (-1) by (unfold Q2R; cbn; field).
  replace (Q2R 2) with 2 by (unfold Q2R; cbn; field).
  replace (Q2R (1 # 3)) with (/ 3) by (unfold Q2R; cbn; field).
  replace (Q2R (1 # 7)) with (/ 7) by (unfold Q2R; cbn; field).
  field. apply not_0_INR. lia.
Qed.

Lemma Q2R_machin_sum (n : nat) :
  Q2R (machin_sum n) = sum_f_R0 (tg_alt PI_2_3_7_tg) n.
Proof.
  induction n as [|n IH]; cbn [machin_sum sum_f_R0].
  - apply Q2R_machin_term.
  - now rewrite Q2R_plus, IH, Q2R_machin_term.
Qed.

Lemma PI_upper : PI < 3.1415926536.
Proof.
  destruct (PI_2_3_7_ineq 6) as [_ H].
  rewrite <- Q2R_machin_sum in H.
  assert (Hq : (machin_sum (2 * 6) < 31415926536 # 40000000000)%Q)
    by (vm_compute; reflexivity).
  apply Qlt_Rlt in Hq.
  replace (Q2R (31415926536 # 40000000000)) with (31415926536 / 40000000000)
    in Hq by reflexivity.
  lra.
Qed.

Lemma PI_lower : 3.14159265358 < PI.
Proof.
  destruct (PI_2_3_7_ineq 6) as [H _].
  rewrite <- Q2R_machin_sum in H.
  assert (Hq : (314159265358 # 400000000000 < machin_sum (S (2 * 6)))%Q)
    by (vm_compute; reflexivity).
  apply Qlt_Rlt in Hq.
  replace (Q2R (314159265358 # 400000000000)) with (314159265358 / 400000000000)
    in Hq by reflexivity.
  lra.
Qed.

(** The constant of the program exceeds pi/180, by less than 10^-12. *)
Lemma deg2radFactor_above : PI / 180 < 0.01745329252.
Proof. pose proof PI_upper. lra. Qed.

Lemma deg2radFactor_close : 0.01745329252 - PI / 180 < 1 / 10 ^ 12.
Proof. pose proof PI_lower. lra. Qed.

Lemma sin_bound_abs (x : R) : Rabs (sin x) <= 1.
Proof. apply Rabs_le. apply SIN_bound. Qed.

Lemma sin_le_abs (x : R) : Rabs (sin x) <= Rabs x.
Proof.
  pose proof PI_lower as Hpi. pose proof (SIN_bound x) as Hb.
  destruct (Rle_or_lt 1 (Rabs x)) as [Hbig|Hsmall].
  - apply Rle_trans with 1; [apply sin_bound_abs | exact Hbig].
  - apply Rabs_def2 in Hsmall. destruct Hsmall as [Hlt Hgt].
    destruct (Rtotal_order x 0) as [Hneg|[Hz|Hpos]].
    + pose proof (sin_gt_x x Hneg). pose proof (sin_lt_0_var x).
      rewrite (Rabs_left x) by assumption. apply Rabs_le. lra.
    + subst x. rewrite sin_0. lra.
    + pose proof (sin_lt_x x Hpos). pose proof (sin_gt_0 x).
      rewrite (Rabs_right x) by lra. apply Rabs_le. lra.
Qed.

(** The sine is 1-Lipschitz. *)
Lemma sin_lipschitz (p q : R) : Rabs (sin p - sin q) <= Rabs (p - q).
Proof.
  rewrite form4, !Rabs_mult, (Rabs_right 2) by lra.
  pose proof (Rabs_le (cos ((p + q) / 2)) 1) as Hc.
  assert (Hcos : Rabs (cos ((p + q) / 2)) <= 1)
    by (apply Rabs_le; apply COS_bound).
  pose proof (sin_le_abs ((p - q) / 2)) as Hs.
  pose proof (Rabs_pos (sin ((p - q) / 2))) as Hs0.
  pose proof (Rabs_pos (cos ((p + q) / 2))) as Hc0.
  replace (Rabs (p - q)) with (2 * Rabs ((p - q) / 2)).
  2:{ unfold Rdiv. rewrite Rabs_mult, (Rabs_right (/ 2)) by lra. lra. }
  nra.
Qed.

End PiBounds.

(** ** C2 and C3: the compensation formulas *)

Section Compensation.

Local Open Scope R_scope.

Lemma unit_amplitude_members :
  amplCorr unit_amplitude = 1
  /\ phaseCorrInDeg unit_amplitude = 0
  /\ offsetCorrInDeg unit_amplitude = 0
  /\ phaseCorrInRad unit_amplitude = 0
  /\ offsetCorrInRad unit_amplitude = 0.
Proof. cbn. repeat split; lra. Qed.

(** C2, as stated, fails on the code: the factor of the program is
    the decimal constant 0.01745329252, which is not pi/180.  With
    amplitude 1, phase 0 and offset 0 the angle 1 rad is compensated
    to 1 + 0.01745329252 sin 1, not to 1 + pi/180 sin 1. *)
Lemma radian_factor_is_not_pi_over_180 :
  compensateAngleInRad unit_amplitude 1
  <> 1 + PI / 180 * amplCorr unit_amplitude
           * sin (1 + phaseCorrInRad unit_amplitude)
       + offsetCorrInRad unit_amplitude.
Proof.
  unfold compensateAngleInRad.
  destruct unit_amplitude_members as (-> & _ & _ & -> & ->).
  replace (1 + 0) with 1 by lra.
  assert (Hs : 0 < sin 1) by (apply sin_gt_0; pose proof PI_lower; lra).
  pose proof deg2radFactor_above. nra.
Qed.

(** C2, amended.  For every angle and every calibration,
    [compensateAngleInRad] returns exactly
    angleInRad + 0.01745329252 * amplCorr * sin (angleInRad + phaseCorrInRad)
    + offsetCorrInRad over the reals, the amplitude term scaled by the
    program's decimal constant for the degree-to-radian factor; the
    result is within 10^-12 * |amplCorr| of the value the same formula
    takes with pi/180. *)
Theorem compensateAngleInRad_formula (self : AngleCompensator) (angleInRad : R) :
  compensateAngleInRad self angleInRad
  = angleInRad
    + 0.01745329252 * amplCorr self * sin (angleInRad + phaseCorrInRad self)
    + offsetCorrInRad self
  /\ Rabs (compensateAngleInRad self angleInRad
           - (angleInRad
              + PI / 180 * amplCorr self * sin (angleInRad + phaseCorrInRad self)
              + offsetCorrInRad self))
     <= 1 / 10 ^ 12 * Rabs (amplCorr self).
Proof.
  split; [reflexivity|]. unfold compensateAngleInRad.
  set (s := sin (angleInRad + phaseCorrInRad self)).
  replace (angleInRad + 0.01745329252 * amplCorr self * s + offsetCorrInRad self
           - (angleInRad + PI / 180 * amplCorr self * s + offsetCorrInRad self))
    with ((0.01745329252 - PI / 180) * (amplCorr self * s)) by ring.
  rewrite !Rabs_mult.
  pose proof deg2radFactor_above as Ha. pose proof deg2radFactor_close as Hc.
  rewrite (Rabs_right (0.01745329252 - PI / 180)) by lra.
  pose proof (sin_bound_abs (angleInRad + phaseCorrInRad self)) as Hs.
  fold s in Hs.
  pose proof (Rabs_pos (amplCorr self)). pose proof (Rabs_pos s).
  apply Rmult_le_compat; [lra | nra | lra | nra].
Qed.

(** C3, as stated, fails on the code, for the same constant.  With
    amplitude 1, phase 0 and offset 0 the angle 180 degrees is
    compensated to 180 + sin 3.1415926536, which is below 180,
    whereas the formula with pi/180 gives 180 + sin pi = 180. *)
Lemma degree_factor_is_not_pi_over_180 :
  compensateAngleInDeg unit_amplitude 180
  <> 180 + amplCorr unit_amplitude
           * sin (PI / 180 * 180 + PI / 180 * phaseCorrInDeg unit_amplitude)
       + offsetCorrInDeg unit_amplitude.
Proof.
  unfold compensateAngleInDeg.
  destruct unit_amplitude_members as (-> & -> & -> & _ & _).
  replace (PI / 180 * 180 + PI / 180 * 0) with PI by field.
  replace (0.01745329252 * 180 + 0.01745329252 * 0) with 3.1415926536 by lra.
  rewrite sin_PI.
  assert (Hs : sin 3.1415926536 < 0).
  { pose proof PI_upper. pose proof PI_lower. apply sin_lt_0; lra. }
  lra.
Qed.

(** C3, amended.  For every angle and every calibration,
    [compensateAngleInDeg] returns exactly
    angleInDeg + amplCorr * sin (0.01745329252 * angleInDeg
    + 0.01745329252 * phaseCorrInDeg) + offsetCorrInDeg over the reals,
    the amplitude unscaled and the angle and the phase converted with
    the program's decimal constant; the result is within
    10^-12 * |amplCorr| * |angleInDeg + phaseCorrInDeg| of the value
    the same formula takes with pi/180. *)
Theorem compensateAngleInDeg_formula (self : AngleCompensator) (angleInDeg : R) :
  compensateAngleInDeg self angleInDeg
  = angleInDeg
    + amplCorr self
      * sin (0.01745329252 * angleInDeg + 0.01745329252 * phaseCorrInDeg self)
    + offsetCorrInDeg self
  /\ Rabs (compensateAngleInDeg self angleInDeg
           - (angleInDeg
              + amplCorr self
                * sin (PI / 180 * angleInDeg + PI / 180 * phaseCorrInDeg self)
              + offsetCorrInDeg self))
     <= 1 / 10 ^ 12 * Rabs (amplCorr self)
        * Rabs (angleInDeg + phaseCorrInDeg self).
Proof.
  split; [reflexivity|]. unfold compensateAngleInDeg.
  set (x := 0.01745329252 * angleInDeg + 0.01745329252 * phaseCorrInDeg self).
  set (y := PI / 180 * angleInDeg + PI / 180 * phaseCorrInDeg self).
  replace (angleInDeg + amplCorr self * sin x + offsetCorrInDeg self
           - (angleInDeg + amplCorr self * sin y + offsetCorrInDeg self))
    with (amplCorr self * (sin x - sin y)) by ring.
  rewrite Rabs_mult.
  pose proof (sin_lipschitz x y) as HL.
  assert (Hxy : Rabs (x - y)
                <= 1 / 10 ^ 12 * Rabs (angleInDeg + phaseCorrInDeg self)).
  { replace (x - y)
      with ((0.01745329252 - PI / 180) * (angleInDeg + phaseCorrInDeg self))
      by (unfold x, y; ring).
    rewrite Rabs_mult.
    pose proof deg2radFactor_above. pose proof deg2radFactor_close.
    rewrite (Rabs_right (0.01745329252 - PI / 180)) by lra.
    pose proof (Rabs_pos (angleInDeg + phaseCorrInDeg self)).
    apply Rmult_le_compat; lra. }
  pose proof (Rabs_pos (amplCorr self)).
  pose proof (Rabs_pos (sin x - sin y)).
  rewrite (Rmult_comm (1 / 10 ^ 12)), Rmult_assoc.
  apply Rmult_le_compat_l; [assumption|].
  rewrite Rmult_comm. lra.
Qed.

End Compensation.

(** ** Strings *)

Section Strings.

Local Open Scope string_scope.

Lemma append_nil_r (s : string) : s ++ "" = s.
Proof. induction s as [|c s IH]; cbn; [reflexivity | now rewrite IH]. Qed.

Lemma append_assoc (s t u : string) : (s ++ t) ++ u = s ++ (t ++ u).
Proof. induction s as [|c s IH]; cbn; [reflexivity | now rewrite IH]. Qed.

Lemma length_append (s t : string) :
  String.length (s ++ t) = (String.length s + String.length t)%nat.
Proof. induction s as [|c s IH]; cbn; [reflexivity | now rewrite IH]. Qed.

Lemma count_char_append (c : ascii) (s t : string) :
  count_char c (s ++ t) = (count_char c s + count_char c t)%nat.
Proof. induction s as [|c' s IH]; cbn; [reflexivity | rewrite IH; lia]. Qed.

Lemma all_chars_append (p : ascii -> bool) (s t : string) :
  all_chars p (s ++ t) = all_chars p s && all_chars p t.
Proof.
  induction s as [|c s IH]; cbn; [reflexivity|].
  now rewrite IH, andb_assoc.
Qed.

Lemma raw_chars_app (xs ys : list byte) :
  raw_chars (xs ++ ys) = raw_chars xs ++ raw_chars ys.
Proof.
  unfold raw_chars, string_of_list_byte.
  induction xs as [|x xs IH]; cbn; [reflexivity | now rewrite IH].
Qed.

Lemma hex_group_app (xs ys : list byte) :
  hex_group (xs ++ ys) = hex_group xs ++ hex_group ys.
Proof.
  induction xs as [|x xs IH]; cbn [hex_group app]; [reflexivity|].
  now rewrite IH, append_assoc.
Qed.

(** [%02X] writes two upper-case hexadecimal digits, whose values are
    the two halves of the byte. *)
Lemma sprintf_02X_digits (b : byte) :
  exists c1 c2 : ascii,
    sprintf_02X b = String c1 (String c2 "")
    /\ is_upper_hex c1 = true /\ is_upper_hex c2 = true
    /\ (digit_value c1 = Some (Z.of_N (Byte.to_N b) / 16)
        /\ digit_value c2 = Some (Z.of_N (Byte.to_N b) mod 16))%Z.
Proof.
  exists (hex_char (Z.of_N (Byte.to_N b) / 16)),
         (hex_char (Z.of_N (Byte.to_N b) mod 16)).
  destruct b; repeat split.
Qed.

Lemma sprintf_02X_length (b : byte) : String.length (sprintf_02X b) = 2%nat.
Proof. reflexivity. Qed.

Lemma sprintf_02X_upper_hex (b : byte) :
  all_chars is_upper_hex (sprintf_02X b) = true.
Proof.
  destruct (sprintf_02X_digits b) as (c1 & c2 & -> & H1 & H2 & _).
  cbn. now rewrite H1, H2.
Qed.

Lemma upper_hex_not_space (c : ascii) :
  is_upper_hex c = true -> (c =? " ")%char = false.
Proof.
  intros H. destruct (Ascii.eqb_spec c " ") as [->|]; [discriminate H | reflexivity].
Qed.

Lemma sprintf_02X_no_space (b : byte) : count_char " " (sprintf_02X b) = 0%nat.
Proof.
  destruct (sprintf_02X_digits b) as (c1 & c2 & -> & H1 & H2 & _).
  cbn. now rewrite (upper_hex_not_space _ H1), (upper_hex_not_space _ H2).
Qed.

Lemma hex_group_length (bs : list byte) :
  String.length (hex_group bs) = (2 * List.length bs)%nat.
Proof.
  induction bs as [|b bs IH]; cbn [hex_group List.length]; [reflexivity|].
  rewrite length_append, sprintf_02X_length, IH. lia.
Qed.

Lemma hex_group_upper_hex (bs : list byte) :
  all_chars is_upper_hex (hex_group bs) = true.
Proof.
  induction bs as [|b bs IH]; cbn [hex_group]; [reflexivity|].
  now rewrite all_chars_append, sprintf_02X_upper_hex, IH.
Qed.

Lemma hex_group_no_space (bs : list byte) : count_char " " (hex_group bs) = 0%nat.
Proof.
  induction bs as [|b bs IH]; cbn [hex_group]; [reflexivity|].
  now rewrite count_char_append, sprintf_02X_no_space, IH.
Qed.

(** Cutting at the first NUL removes characters only. *)
Lemma count_char_c_str (c : ascii) (s : string) :
  (count_char c (c_str s) <= count_char c s)%nat.
Proof.
  induction s as [|c' s IH]; cbn; [lia|].
  destruct (c' =? NUL)%char; cbn; lia.
Qed.

(** [getline] yields at most one token more than there are
    delimiters. *)
Lemma getline_loop_length (delim : ascii) (s : string) (tok : list ascii) :
  (List.length (getline_loop delim tok s) <= count_char delim s + 1)%nat.
Proof.
  revert tok. induction s as [|c s IH]; intros tok; cbn.
  - destruct tok; cbn; lia.
  - destruct (c =? delim)%char; cbn.
    + specialize (IH []). lia.
    + apply IH.
Qed.

Lemma split_reply_length (s : string) :
  (List.length (split_reply s) <= count_char " " s + 1)%nat.
Proof.
  unfold split_reply.
  pose proof (getline_loop_length " " (c_str s) []).
  pose proof (count_char_c_str " " s). lia.
Qed.

End Strings.

(** ** The conversion loop *)

Section Conversion.

Variable replyVec : list byte.
Variable offset : Z.

Lemma firstn_succ_nth (A : Type) (d : A) (l : list A) (k : nat) :
  (k < List.length l)%nat ->
  firstn (S k) l = (firstn k l ++ [nth k l d])%list.
Proof.
  revert k. induction l as [|x l IH]; intros k Hk; cbn in Hk; [lia|].
  destruct k as [|k]; [reflexivity|].
  cbn [firstn nth app]. f_equal. rewrite <- IH by lia. reflexivity.
Qed.

Lemma nth_skipn_plus (A : Type) (d : A) (l : list A) (k j : nat) :
  nth j (skipn k l) d = nth (k + j) l d.
Proof.
  revert l. induction k as [|k IH]; intros l; [reflexivity|].
  destruct l as [|x l]; cbn [skipn Nat.add nth]; [now destruct j | apply IH].
Qed.

Lemma conversion_run_succ (k : nat) :
  conversion_run replyVec offset (S k)
  = conversion_step replyVec offset (conversion_run replyVec offset k).
Proof. reflexivity. Qed.

Lemma conversion_step_raw (st : conversion) :
  conv_i st < offset ->
  conversion_step replyVec offset st
  = {| conv_i := conv_i st + 1;
       conv_relCnt := conv_relCnt st;
       conv_stmp :=
         conv_stmp st
         ++ raw_chars [nth (Z.to_nat (conv_i st)) replyVec x00] |}.
Proof.
  intros H. unfold conversion_step.
  destruct (Z.ltb_spec (conv_i st) offset); [reflexivity | lia].
Qed.

Lemma conversion_step_hex (st : conversion) :
  offset <= conv_i st ->
  conversion_step replyVec offset st
  = {| conv_i := conv_i st + 1;
       conv_relCnt := conv_relCnt st + 1;
       conv_stmp :=
         conv_stmp st
         ++ sprintf_02X (nth (Z.to_nat (conv_i st)) replyVec x00)
         ++ separator (conv_relCnt st + 1) |}.
Proof.
  intros H. unfold conversion_step, separator.
  destruct (Z.ltb_spec (conv_i st) offset); [lia|].
  destruct ((conv_relCnt st + 1 <? 12) && ((conv_relCnt st + 1) mod 4 =? 0)).
  - now rewrite append_assoc.
  - now rewrite append_nil_r.
Qed.

(** Below [offset] the bytes are copied as characters. *)
Lemma conversion_run_raw (k : nat) :
  (k <= List.length replyVec)%nat ->
  Z.of_nat k <= offset ->
  conversion_run replyVec offset k
  = {| conv_i := Z.of_nat k;
       conv_relCnt := 0;
       conv_stmp := raw_chars (firstn k replyVec) |}.
Proof.
  induction k as [|k IH]; intros Hlen Hoff; [reflexivity|].
  rewrite conversion_run_succ, IH by lia.
  rewrite conversion_step_raw by (cbn [conv_i]; lia).
  cbn [conv_i conv_relCnt conv_stmp].
  rewrite Nat2Z.id, (firstn_succ_nth _ x00) by lia.
  rewrite raw_chars_app. f_equal. lia.
Qed.

Lemma hex_spaced_snoc (relCnt : Z) (bs : list byte) (b : byte) :
  hex_spaced relCnt (bs ++ [b])
  = hex_spaced relCnt bs
    ++ sprintf_02X b ++ separator (relCnt + Z.of_nat (List.length bs) + 1).
Proof.
  revert relCnt. induction bs as [|x bs IH]; intros relCnt.
  - cbn [hex_spaced app List.length Z.of_nat append].
    rewrite Z.add_0_r. now rewrite !append_nil_r.
  - cbn [hex_spaced app List.length]. rewrite IH, !append_assoc.
    replace (relCnt + 1 + Z.of_nat (List.length bs) + 1)
      with (relCnt + Z.of_nat (S (List.length bs)) + 1) by lia.
    reflexivity.
Qed.

(** From [offset] on they are formatted. *)
Lemma conversion_run_hex (k0 j : nat) (st0 : conversion) :
  conversion_run replyVec offset k0 = st0 ->
  conv_i st0 = Z.of_nat k0 ->
  offset <= Z.of_nat k0 ->
  (k0 + j <= List.length replyVec)%nat ->
  conversion_run replyVec offset (j + k0)
  = {| conv_i := Z.of_nat (k0 + j);
       conv_relCnt := conv_relCnt st0 + Z.of_nat j;
       conv_stmp :=
         conv_stmp st0
         ++ hex_spaced (conv_relCnt st0) (firstn j (skipn k0 replyVec)) |}.
Proof.
  intros Hrun Hi Hoff. induction j as [|j IH]; intros Hlen.
  - cbn [Nat.add firstn hex_spaced]. rewrite Hrun, append_nil_r, Nat.add_0_r, Z.add_0_r.
    rewrite <- Hi. now destruct st0.
  - cbn [Nat.add]. rewrite conversion_run_succ, IH by lia.
    rewrite conversion_step_hex by (cbn [conv_i]; lia).
    cbn [conv_i conv_relCnt conv_stmp].
    rewrite Nat2Z.id.
    rewrite (firstn_succ_nth _ x00)
      by (rewrite length_skipn; lia).
    rewrite hex_spaced_snoc, nth_skipn_plus, append_assoc.
    rewrite length_firstn, length_skipn.
    replace (Init.Nat.min j (List.length replyVec - k0)) with j by lia.
    replace (conv_relCnt st0 + Z.of_nat j + 1)
      with (conv_relCnt st0 + Z.of_nat (S j)) by lia.
    replace (Z.of_nat (k0 + j) + 1) with (Z.of_nat (k0 + S j)) by lia.
    reflexivity.
Qed.

End Conversion.

(** ** The converted text *)

Lemma int_of_size_small (n : nat) :
  Z.of_nat n < 2 ^ 31 -> Int.int_of_size n = Z.of_nat n.
Proof.
  intros H. unfold Int.int_of_size, Int.to_signed, Int.to_unsigned.
  change (2 ^ (32 - 1)) with (2 ^ 31).
  assert (H32 : 2 ^ 31 < 2 ^ 32) by reflexivity.
  rewrite Z.mod_small by lia.
  destruct (Z.ltb_spec (Z.of_nat n) (2 ^ 31)); [reflexivity | lia].
Qed.

Lemma binary_to_ascii_long (replyVec : list byte) :
  (12 <= List.length replyVec)%nat ->
  Z.of_nat (List.length replyVec) < 2 ^ 31 ->
  binary_to_ascii replyVec
  = (raw_chars (firstn (List.length replyVec - 12) replyVec)
     ++ hex_spaced 0 (skipn (List.length replyVec - 12) replyVec))%string.
Proof.
  intros H12 Hint. unfold binary_to_ascii.
  rewrite int_of_size_small, Nat2Z.id by assumption.
  set (k0 := (List.length replyVec - 12)%nat).
  replace (List.length replyVec) with (12 + k0)%nat at 2 by lia.
  replace (Z.of_nat (List.length replyVec) - 12) with (Z.of_nat k0) by lia.
  erewrite conversion_run_hex;
    [ | apply conversion_run_raw; lia | reflexivity | lia | lia ].
  cbn [conv_stmp conv_relCnt].
  rewrite (@firstn_all2 _ 12) by (rewrite length_skipn; lia).
  reflexivity.
Qed.

Lemma binary_to_ascii_short (replyVec : list byte) :
  (List.length replyVec < 12)%nat ->
  binary_to_ascii replyVec = hex_spaced 0 replyVec.
Proof.
  intros H12. unfold binary_to_ascii.
  rewrite int_of_size_small, Nat2Z.id
    by (apply Z.lt_trans with 12; [lia | reflexivity]).
  replace (List.length replyVec) with (List.length replyVec + 0)%nat at 2 by lia.
  erewrite conversion_run_hex; [ | reflexivity | reflexivity | lia | lia ].
  cbn [conv_stmp conv_relCnt skipn append].
  now rewrite firstn_all.
Qed.

Lemma hex_spaced_twelve (b0 b1 b2 b3 b4 b5 b6 b7 b8 b9 b10 b11 : byte) :
  hex_spaced 0 [b0; b1; b2; b3; b4; b5; b6; b7; b8; b9; b10; b11]
  = (hex_group [b0; b1; b2; b3] ++ " "
     ++ hex_group [b4; b5; b6; b7] ++ " "
     ++ hex_group [b8; b9; b10; b11])%string.
Proof. reflexivity. Qed.

(** Case analysis of a list known to have fewer than 12 elements. *)
Ltac by_length l H :=
  destruct l as [|? [|? [|? [|? [|? [|? [|? [|? [|? [|? [|? [|? ?]]]]]]]]]]]];
  try (exfalso; cbn in H; lia).

Lemma hex_spaced_by_four (bs : list byte) :
  (List.length bs < 12)%nat -> hex_spaced 0 bs = hex_by_four bs.
Proof.
  intros H. by_length bs H; reflexivity.
Qed.

Lemma hex_by_four_spaces (bs : list byte) :
  (List.length bs < 12)%nat -> (count_char " " (hex_by_four bs) <= 2)%nat.
Proof.
  intros H. by_length bs H;
    cbn [hex_by_four hex_group];
    repeat rewrite count_char_append;
    rewrite ?sprintf_02X_no_space; cbn; lia.
Qed.

Lemma last_twelve (replyVec : list byte) :
  (12 <= List.length replyVec)%nat ->
  exists b0 b1 b2 b3 b4 b5 b6 b7 b8 b9 b10 b11 : byte,
    skipn (List.length replyVec - 12) replyVec
    = [b0; b1; b2; b3; b4; b5; b6; b7; b8; b9; b10; b11].
Proof.
  intros H.
  assert (L : List.length (skipn (List.length replyVec - 12) replyVec) = 12%nat)
    by (rewrite length_skipn; lia).
  destruct (skipn (List.length replyVec - 12) replyVec) as [|b0 t]; [discriminate L|].
  do 11 (destruct t as [|? t]; [discriminate L|]).
  destruct t; [|discriminate L]. repeat eexists.
Qed.

Lemma converted_text_spaced (replyVec : list byte) :
  (12 <= List.length replyVec)%nat ->
  converted_text replyVec
  = (raw_chars (firstn (List.length replyVec - 12) replyVec)
     ++ hex_spaced 0 (skipn (List.length replyVec - 12) replyVec))%string.
Proof.
  intros H. unfold converted_text.
  destruct (last_twelve replyVec H)
    as (b0 & b1 & b2 & b3 & b4 & b5 & b6 & b7 & b8 & b9 & b10 & b11 & E).
  replace (List.length replyVec - 8)%nat with (4 + (List.length replyVec - 12))%nat by lia.
  replace (List.length replyVec - 4)%nat with (8 + (List.length replyVec - 12))%nat by lia.
  rewrite <- !skipn_skipn, E. cbn [skipn firstn].
  now rewrite hex_spaced_twelve.
Qed.

(** ** C6: a binary reply of at least 12 bytes *)

(** C6, as stated, fails on the code: the space follows the 4th and
    the 8th byte, so the twelve data bytes of the testbed become three
    groups of 8 hexadecimal characters each, 26 characters in all, and
    not groups of 4, 8 and 4. *)
Lemma groups_are_not_4_8_4 :
  (12 <= List.length dataArr)%nat
  /\ binary_to_ascii dataArr = "00000765 FFFCC9B9 FFFFFF0B"
  /\ ~ groups_4_8_4 dataArr (binary_to_ascii dataArr).
Proof.
  split; [cbn; lia|]. split; [reflexivity|].
  intros (g1 & g2 & g3 & E & L1 & L2 & L3).
  apply (f_equal String.length) in E.
  rewrite !length_append, L1, L2, L3 in E.
  discriminate E.
Qed.

(** C6, amended.  For every input byte sequence of length n with
    12 <= n < 2^31 (a size the [int sLen] holds), the conversion copies
    the bytes 0 to n-13 as raw characters and writes each of the last 12
    bytes as two upper-case hexadecimal digits, with a single space
    after the 4th and after the 8th of them: the trailing payload
    becomes three space-separated groups of 8 hexadecimal characters
    each. *)
Theorem binary_to_ascii_three_groups (replyVec : list byte) :
  (12 <= List.length replyVec)%nat ->
  Z.of_nat (List.length replyVec) < 2 ^ 31 ->
  let n := List.length replyVec in
  let g1 := hex_group (firstn 4 (skipn (n - 12) replyVec)) in
  let g2 := hex_group (firstn 4 (skipn (n - 8) replyVec)) in
  let g3 := hex_group (skipn (n - 4) replyVec) in
  binary_to_ascii replyVec
  = (raw_chars (firstn (n - 12) replyVec) ++ g1 ++ " " ++ g2 ++ " " ++ g3)%string
  /\ String.length g1 = 8%nat /\ String.length g2 = 8%nat /\ String.length g3 = 8%nat
  /\ all_chars is_upper_hex g1 = true
  /\ all_chars is_upper_hex g2 = true
  /\ all_chars is_upper_hex g3 = true.
Proof.
  intros H12 Hint n g1 g2 g3. split.
  - rewrite binary_to_ascii_long by assumption.
    rewrite <- converted_text_spaced by assumption. reflexivity.
  - subst g1 g2 g3. rewrite !hex_group_length, !hex_group_upper_hex.
    rewrite !length_firstn, !length_skipn. subst n.
    repeat split; lia.
Qed.

Lemma binary_to_ascii_three_groups_witness :
  (12 <= List.length testVec_binary)%nat
  /\ Z.of_nat (List.length testVec_binary) < 2 ^ 31
  /\ binary_to_ascii testVec_binary
     = ("sRA MCAngleCompSin " ++ "00000765" ++ " " ++ "FFFCC9B9" ++ " " ++ "FFFFFF0B")%string.
Proof.
  assert (H12 : (12 <= List.length testVec_binary)%nat) by (cbn; lia).
  assert (Hint : Z.of_nat (List.length testVec_binary) < 2 ^ 31) by reflexivity.
  split; [exact H12 | split; [exact Hint|]].
  exact (proj1 (binary_to_ascii_three_groups testVec_binary H12 Hint)).
Defined.

(** ** C8: a binary reply of fewer than 12 bytes *)

(** C8, as stated, fails on the code: a reply of four bytes is
    converted to a token string like any other, [parseReply] returns 0,
    and the object calibrated before does not survive when the
    unassigned locals hold 0. *)
Lemma short_binary_not_reported :
  (List.length four_bytes < 12)%nat
  /\ binary_to_ascii four_bytes = "12345678 "
  /\ ~ reports_failure (parseReply frame_zero true four_bytes calibrated)
  /\ object_after (parseReply frame_zero true four_bytes calibrated) <> calibrated.
Proof.
  assert (E : parseReply frame_zero true four_bytes calibrated
              = Returned 0 (store_calibration frame_zero)) by reflexivity.
  split; [cbn; lia|]. split; [reflexivity|]. rewrite E. split.
  - cbn. intros H. now apply H.
  - cbn [object_after]. unfold calibrated. intros H.
    apply store_calibration_amplCorr in H. discriminate H.
Qed.

(** C8, amended.  For every input byte sequence of fewer than 12
    bytes the binary branch reports no failure: every byte is written
    as two upper-case hexadecimal digits, with a space after each
    complete group of four bytes; the text has at most 3 tokens, so it
    is never parsed as a frame, and [parseReply] returns normally with
    the return code 0. *)
Theorem short_binary_returns_zero (replyVec : list byte) :
  (List.length replyVec < 12)%nat ->
  binary_to_ascii replyVec = hex_by_four replyVec
  /\ (List.length (split_reply (binary_to_ascii replyVec)) <= 3)%nat
  /\ forall indet self,
       exists self', parseReply indet true replyVec self = Returned 0 self'.
Proof.
  intros H12.
  assert (E : binary_to_ascii replyVec = hex_by_four replyVec)
    by (rewrite binary_to_ascii_short, hex_spaced_by_four; auto).
  assert (L : (List.length (split_reply (binary_to_ascii replyVec)) <= 3)%nat).
  { pose proof (split_reply_length (binary_to_ascii replyVec)) as H.
    rewrite E in H at 2. pose proof (hex_by_four_spaces replyVec H12). lia. }
  split; [exact E | split; [exact L|]].
  intros indet self. exists (store_calibration indet).
  rewrite parseReply_as_parseAsciiReply.
  apply parseAsciiReply_other_count. lia.
Qed.

Lemma short_binary_returns_zero_witness :
  (List.length four_bytes < 12)%nat
  /\ binary_to_ascii four_bytes = hex_by_four four_bytes
  /\ exists self',
       parseReply frame_zero true four_bytes calibrated = Returned 0 self'.
Proof.
  assert (H12 : (List.length four_bytes < 12)%nat) by (cbn; lia).
  destruct (short_binary_returns_zero four_bytes H12) as (E & _ & R).
  split; [exact H12 | split; [exact E | exact (R frame_zero calibrated)]].
Defined.

(** ** Narrowing to 16 and 32 bits *)

Section Narrowing.

Variable w : Z.
Hypothesis w_pos : 0 < w.

Lemma pow2_split : 2 ^ w = 2 ^ (w - 1) * 2.
Proof.
  replace w with (w - 1 + 1) at 1 by lia.
  rewrite Z.pow_add_r by lia. reflexivity.
Qed.

Lemma pow2_half_pos : 0 < 2 ^ (w - 1).
Proof. apply Z.pow_pos_nonneg; lia. Qed.

(** The cast to the signed type, on the low [w] bits, is the
    two's-complement reading. *)
Lemma to_signed_mod (v : Z) :
  Int.to_signed w (v mod 2 ^ w) = twos_complement w v.
Proof.
  unfold Int.to_signed, twos_complement.
  pose proof pow2_half_pos as Hh.
  rewrite pow2_split, Z.rem_mul_r by lia.
  pose proof (Z.mod_pos_bound v (2 ^ (w - 1)) Hh) as Hr.
  pose proof (Z.mod_pos_bound (v / 2 ^ (w - 1)) 2 ltac:(lia)) as Hb.
  destruct (Z.testbit v (w - 1)) eqn:T.
  - apply Z.testbit_true in T; [|lia].
    rewrite T. destruct (Z.ltb_spec (v mod 2 ^ (w - 1) + 2 ^ (w - 1) * 1)
                           (2 ^ (w - 1))); lia.
  - assert (B : (v / 2 ^ (w - 1)) mod 2 = 0).
    { destruct (Z.eq_dec ((v / 2 ^ (w - 1)) mod 2) 1) as [E|E].
      - apply Z.testbit_true in E; [congruence | lia].
      - lia. }
    rewrite B. destruct (Z.ltb_spec (v mod 2 ^ (w - 1) + 2 ^ (w - 1) * 0)
                           (2 ^ (w - 1))); lia.
Qed.

(** It is the one integer of the signed range congruent to [v]. *)
Lemma twos_complement_range (v : Z) :
  - 2 ^ (w - 1) <= twos_complement w v < 2 ^ (w - 1)
  /\ (twos_complement w v - v) mod 2 ^ w = 0.
Proof.
  unfold twos_complement. pose proof pow2_half_pos as Hh.
  pose proof (Z.mod_pos_bound v (2 ^ (w - 1)) Hh) as Hr.
  split; [destruct (Z.testbit v (w - 1)); lia|].
  pose proof (Z.div_mod v (2 ^ (w - 1)) ltac:(lia)) as Hv.
  pose proof (Z.div_mod (v / 2 ^ (w - 1)) 2 ltac:(lia)) as Hq.
  set (q := v / 2 ^ (w - 1)) in *. set (r := v mod 2 ^ (w - 1)) in *.
  rewrite pow2_split.
  destruct (Z.testbit v (w - 1)) eqn:T.
  - apply Z.testbit_true in T; [|lia]. fold q in T. rewrite T in Hq.
    replace (r - 2 ^ (w - 1) - v) with ((- (q / 2) - 1) * (2 ^ (w - 1) * 2)) by lia.
    apply Z.mod_mul. lia.
  - assert (B : q mod 2 = 0).
    { pose proof (Z.mod_pos_bound q 2 ltac:(lia)).
      destruct (Z.eq_dec (q mod 2) 1) as [E|E]; [|lia].
      apply Z.testbit_true in E; [|lia]. unfold q in E. congruence. }
    rewrite B in Hq.
    replace (r - 0 - v) with ((- (q / 2)) * (2 ^ (w - 1) * 2)) by lia.
    apply Z.mod_mul. lia.
Qed.

(** Only the low [w] bits of the [unsigned long] matter. *)
Lemma narrow_ulong (v : Z) :
  w <= 64 ->
  Int.to_signed w (Z.land (2 ^ w - 1) (Int.to_unsigned 64 v)) = twos_complement w v.
Proof.
  intros Hw. unfold Int.to_unsigned.
  rewrite Z.land_comm, Z.sub_1_r, <- Z.ones_equiv, Z.land_ones by lia.
  rewrite <- to_signed_mod. f_equal.
  replace 64 with (w + (64 - w)) by lia.
  rewrite Z.pow_add_r, Z.rem_mul_r by (try apply Z.pow_nonzero; lia).
  rewrite Z.mul_comm, Z.mod_add by (apply Z.pow_nonzero; lia).
  apply Z.mod_mod. apply Z.pow_nonzero; lia.
Qed.

End Narrowing.

(** ** Scanning well-formed literals *)

Section Scanning.

Lemma digit_is_no_space (base : Z) (c : ascii) (d : Z) :
  digit_in_base base c = Some d -> isspace c = false.
Proof.
  unfold digit_in_base, digit_value, isspace.
  destruct ((48 <=? code c) && (code c <=? 57)) eqn:E1;
    [|destruct ((65 <=? code c) && (code c <=? 90)) eqn:E2;
      [|destruct ((97 <=? code c) && (code c <=? 122)) eqn:E3; [|discriminate]]];
    intros _; lia.
Qed.

Lemma digit_is_no_sign (base : Z) (c : ascii) (d : Z) :
  digit_in_base base c = Some d -> (c =? "-")%char = false /\ (c =? "+")%char = false.
Proof.
  intros H.
  split; [destruct (Ascii.eqb_spec c "-") as [->|] | destruct (Ascii.eqb_spec c "+") as [->|]];
    try reflexivity; discriminate H.
Qed.

Lemma digit_is_no_x (c : ascii) (d : Z) :
  digit_in_base 16 c = Some d -> ((c =? "x")%char || (c =? "X")%char) = false.
Proof.
  intros H.
  destruct (Ascii.eqb_spec c "x") as [->|]; [discriminate H|].
  destruct (Ascii.eqb_spec c "X") as [->|]; [discriminate H | reflexivity].
Qed.

Lemma digit_bounds (base : Z) (c : ascii) (d : Z) :
  digit_in_base base c = Some d -> 0 <= d < base.
Proof.
  unfold digit_in_base, digit_value.
  destruct ((48 <=? code c) && (code c <=? 57)) eqn:E1;
    [|destruct ((65 <=? code c) && (code c <=? 90)) eqn:E2;
      [|destruct ((97 <=? code c) && (code c <=? 122)) eqn:E3; [|discriminate]]];
    match goal with |- context [?x <? base] => destruct (Z.ltb_spec x base) end;
    intros Heq; inversion Heq; subst; lia.
Qed.

(** On a string of digits the scanner computes the positional
    value, continuing from [acc]. *)
Lemma scan_digits_all (base : Z) (s : string) :
  forall (ds : list Z) (acc : Z) (seen : bool),
    digits_of base s = Some ds ->
    scan_digits base acc seen s
    = match ds with
      | [] => if seen then Some acc else None
      | _ :: _ =>
          Some (acc * base ^ Z.of_nat (List.length ds) + positional base ds)
      end.
Proof.
  induction s as [|c s IH]; intros ds acc seen H; cbn in H.
  - inversion H. reflexivity.
  - destruct (digit_in_base base c) as [d|] eqn:D; [|discriminate H].
    destruct (digits_of base s) as [ds'|] eqn:DS; [|discriminate H].
    inversion H; subst ds. cbn [scan_digits]. rewrite D.
    rewrite (IH ds' (acc * base + d) true eq_refl).
    cbn [positional]. destruct ds' as [|d' ds''].
    + cbn. f_equal. lia.
    + f_equal. set (n := List.length (d' :: ds'')).
      change (List.length (d :: d' :: ds'')) with (S n).
      rewrite Nat2Z.inj_succ, Z.pow_succ_r by lia. ring.
Qed.

Lemma scan_digits_numeral (base : Z) (s : string) (m : Z) :
  numeral base s = Some m -> scan_digits base 0 false s = Some m.
Proof.
  unfold numeral. destruct s as [|c s]; [discriminate|].
  destruct (digits_of base (String c s)) as [ds|] eqn:DS; [|discriminate].
  cbn [option_map]. intros H. inversion H; subst m.
  rewrite (scan_digits_all _ _ ds 0 false DS).
  destruct ds as [|d ds]; [|reflexivity].
  cbn in DS. destruct (digit_in_base base c); [|discriminate DS].
  destruct (digits_of base s); discriminate DS.
Qed.

Lemma numeral_nonneg (base : Z) (s : string) (m : Z) :
  0 < base -> numeral base s = Some m -> 0 <= m.
Proof.
  intros Hb. unfold numeral. destruct s as [|c0 s0]; [discriminate|].
  generalize (String c0 s0) as s. clear c0 s0. intros s. revert m.
  induction s as [|c s IH]; intros m H; cbn in H.
  - inversion H. reflexivity.
  - destruct (digit_in_base base c) as [d|] eqn:D; [|discriminate H].
    destruct (digits_of base s) as [ds|] eqn:DS; [|discriminate H].
    cbn in H. inversion H.
    specialize (IH _ eq_refl). apply digit_bounds in D.
    assert (0 <= base ^ Z.of_nat (List.length ds)) by (apply Z.pow_nonneg; lia).
    nia.
Qed.

Lemma numeral_head (base : Z) (s : string) (m : Z) :
  numeral base s = Some m ->
  exists c s' d, s = String c s' /\ digit_in_base base c = Some d.
Proof.
  unfold numeral. destruct s as [|c s]; [discriminate|].
  cbn [digits_of]. destruct (digit_in_base base c) as [d|] eqn:D; [|discriminate].
  intros _. now exists c, s, d.
Qed.

(** A string of hexadecimal digits has no ["0x"] to take. *)
Lemma take_hex_prefix_digits (s : string) (m : Z) :
  numeral 16 s = Some m -> take_hex_prefix s = s.
Proof.
  unfold numeral. destruct s as [|c0 [|c1 [|c2 s]]]; try reflexivity.
  cbn [digits_of]. destruct (digit_in_base 16 c0); [|discriminate].
  destruct (digit_in_base 16 c1) as [d1|] eqn:D1; [|discriminate].
  intros _. cbn [take_hex_prefix].
  rewrite (digit_is_no_x _ _ D1), andb_false_r. reflexivity.
Qed.

(** The parser on a well-formed token: its value, as the
    [unsigned long] holds it. *)
Lemma parse_value_literal (tok : string) (v old : Z) :
  literal_value tok = Some v ->
  parse_value tok old = inr (Int.to_unsigned 64 v).
Proof.
  unfold literal_value, parse_value, in_range.
  destruct tok as [|c rest]; [discriminate|]. cbn [first_char].
  destruct (Ascii.eqb_spec c "+") as [->|Hplus].
  - cbn [orb]. destruct (numeral 10 rest) as [m|] eqn:N; [|discriminate].
    destruct ((Int.LONG_MIN <=? m) && (m <=? Int.LONG_MAX)) eqn:R; [|discriminate].
    intros H. inversion H; subst v.
    unfold sscanf_ld.
    change (skip_spaces (String "+" rest)) with (String "+" rest).
    change (take_sign (String "+" rest)) with (false, rest).
    cbv beta iota zeta.
    rewrite (scan_digits_numeral _ _ _ N).
    unfold Int.ulong_of_long. do 2 f_equal. lia.
  - destruct (Ascii.eqb_spec c "-") as [->|Hminus].
    + cbn [orb]. destruct (numeral 10 rest) as [m|] eqn:N; [|discriminate].
      cbn [option_map].
      destruct ((Int.LONG_MIN <=? - m) && (- m <=? Int.LONG_MAX)) eqn:R; [|discriminate].
      intros H. inversion H; subst v.
      unfold sscanf_ld.
      change (skip_spaces (String "-" rest)) with (String "-" rest).
      change (take_sign (String "-" rest)) with (true, rest).
      cbv beta iota zeta.
      rewrite (scan_digits_numeral _ _ _ N).
      unfold Int.ulong_of_long. do 2 f_equal. lia.
    + cbn [orb]. destruct (numeral 16 (String c rest)) as [m|] eqn:N; [|discriminate].
      destruct ((0 <=? m) && (m <=? Int.ULONG_MAX)) eqn:R; [|discriminate].
      intros H. inversion H; subst v.
      destruct (numeral_head _ _ _ N) as (c' & s' & d & E & D).
      inversion E; subst c' s'.
      unfold stoul16, strtoul16. cbn [skip_spaces].
      rewrite (digit_is_no_space _ _ _ D). cbn [take_sign].
      destruct (digit_is_no_sign _ _ _ D) as [-> ->].
      cbv beta iota zeta.
      rewrite (take_hex_prefix_digits _ _ N), (scan_digits_numeral _ _ _ N).
      destruct (Z.ltb_spec Int.ULONG_MAX m); [lia|].
      unfold Int.to_unsigned. rewrite Z.mod_small; [reflexivity|].
      unfold Int.ULONG_MAX in *. lia.
Qed.

(** A token that does not begin like a number makes [std::stoul]
    throw. *)
Lemma parse_value_no_number (tok : string) (old : Z) :
  number_head (first_char tok) = false ->
  parse_value tok old = inl invalid_argument.
Proof.
  unfold number_head, parse_value. intros H.
  apply orb_false_iff in H. destruct H as [H Hd].
  apply orb_false_iff in H. destruct H as [H Hs].
  rewrite H. destruct tok as [|c rest]; [reflexivity|].
  cbn [first_char] in *. apply orb_false_iff in H. destruct H as [Hp Hm].
  unfold stoul16, strtoul16. cbn [skip_spaces]. rewrite Hs.
  cbn [take_sign]. rewrite Hp, Hm. cbv beta iota zeta.
  assert (Hz : (c =? "0")%char = false).
  { destruct (Ascii.eqb_spec c "0") as [->|]; [discriminate Hd | reflexivity]. }
  assert (Hpre : take_hex_prefix (String c rest) = String c rest).
  { destruct rest as [|c1 [|c2 s]]; try reflexivity. cbn. now rewrite Hz. }
  rewrite Hpre. cbn [scan_digits].
  destruct (digit_in_base 16 c); [discriminate Hd | reflexivity].
Qed.

(** A token with a sign never makes the parser fail. *)
Lemma parse_value_signed (tok : string) (old : Z) :
  (first_char tok =? "+")%char || (first_char tok =? "-")%char = true ->
  exists v, parse_value tok old = inr v.
Proof.
  unfold parse_value. intros ->.
  destruct (sscanf_ld tok); eexists; reflexivity.
Qed.

End Scanning.

(** ** C5: the values of a well-formed reply *)

(** C5.  For every reply of 5 tokens whose three value tokens are
    well-formed literals (signed decimal when the token starts with '+'
    or '-', unsigned hexadecimal otherwise), the parser stores in the
    16-bit amplitude, the 32-bit phase and the 16-bit offset the low 16,
    32 and 16 bits of the literal's value read as a two's-complement
    number, each within the range of its type and congruent to the
    value; the object is set from these three numbers.  The token
    ["FFFE"] gives -2 in the two 16-bit fields. *)
Theorem value_tokens_narrowed
    (indet : CalibrationFrame) (replyStr : string) (self : AngleCompensator)
    (h0 h1 t0 t1 t2 : string) (v0 v1 v2 : Z) :
  split_reply replyStr = [h0; h1; t0; t1; t2] ->
  literal_value t0 = Some v0 ->
  literal_value t1 = Some v1 ->
  literal_value t2 = Some v2 ->
  let f := {| ampl10000th := twos_complement 16 v0;
              phase10000th := twos_complement 32 v1;
              offset10000th := twos_complement 16 v2 |} in
  decode_locals indet replyStr = inr f
  /\ parseAsciiReply indet replyStr self = Returned 0 (store_calibration f)
  /\ (- 2 ^ 15 <= ampl10000th f < 2 ^ 15 /\ (ampl10000th f - v0) mod 2 ^ 16 = 0)
  /\ (- 2 ^ 31 <= phase10000th f < 2 ^ 31 /\ (phase10000th f - v1) mod 2 ^ 32 = 0)
  /\ (- 2 ^ 15 <= offset10000th f < 2 ^ 15 /\ (offset10000th f - v2) mod 2 ^ 16 = 0)
  /\ literal_value "FFFE" = Some 65534
  /\ decode_locals indet "sRA MCAngleCompSin FFFE FFFE FFFE"
     = inr {| ampl10000th := -2; phase10000th := 65534; offset10000th := -2 |}.
Proof.
  intros Hsplit L0 L1 L2 f.
  assert (D : decode_locals indet replyStr = inr f).
  { rewrite (decode_locals_five _ _ _ _ _ _ _ Hsplit).
    rewrite (parse_value_literal _ _ _ L0), (parse_value_literal _ _ _ L1),
      (parse_value_literal _ _ _ L2).
    change 0xFFFF with (2 ^ 16 - 1). change 0xFFFFFFFF with (2 ^ 32 - 1).
    rewrite !narrow_ulong by lia. reflexivity. }
  split; [exact D|]. split; [unfold parseAsciiReply; now rewrite D|].
  cbn [ampl10000th phase10000th offset10000th f].
  split; [apply (twos_complement_range 16); lia|].
  split; [apply (twos_complement_range 32); lia|].
  split; [apply (twos_complement_range 16); lia|].
  split; reflexivity.
Qed.

Lemma value_tokens_narrowed_witness :
  split_reply reply_dec = ["sRA"; "MCAngleCompSin"; "+1893"; "-210503"; "-245"]
  /\ literal_value "+1893" = Some 1893
  /\ literal_value "-210503" = Some (-210503)
  /\ literal_value "-245" = Some (-245)
  /\ decode_locals frame_zero reply_dec
     = inr {| ampl10000th := twos_complement 16 1893;
              phase10000th := twos_complement 32 (-210503);
              offset10000th := twos_complement 16 (-245) |}.
Proof.
  assert (S : split_reply reply_dec
              = ["sRA"; "MCAngleCompSin"; "+1893"; "-210503"; "-245"]) by reflexivity.
  assert (L0 : literal_value "+1893" = Some 1893) by reflexivity.
  assert (L1 : literal_value "-210503" = Some (-210503)) by reflexivity.
  assert (L2 : literal_value "-245" = Some (-245)) by reflexivity.
  split; [exact S | split; [exact L0 | split; [exact L1 | split; [exact L2|]]]].
  exact (proj1 (value_tokens_narrowed frame_zero reply_dec calibrated
                  _ _ _ _ _ _ _ _ S L0 L1 L2)).
Defined.

(** ** C9: value tokens that are not numbers *)

(** C9, as stated, fails on the code.  The token ["+x"] starts with a
    sign and is no decimal integer, and the token ["1G"] is no
    hexadecimal integer; neither is reported: [parseAsciiReply] returns
    0 and overwrites the object calibrated before, with the 0 that
    [helperArr] was initialised to in the first case and with the
    leading digit 1 in the second. *)
Lemma invalid_literal_not_reported :
  List.length (split_reply reply_bad_decimal) = 5%nat
  /\ literal_syntax "+x" = false
  /\ parseAsciiReply frame_testbed reply_bad_decimal calibrated
     = Returned 0 (store_calibration frame_zero)
  /\ ~ reports_failure (parseAsciiReply frame_testbed reply_bad_decimal calibrated)
  /\ object_after (parseAsciiReply frame_testbed reply_bad_decimal calibrated)
     <> calibrated
  /\ List.length (split_reply reply_bad_hex_tail) = 5%nat
  /\ literal_syntax "1G" = false
  /\ parseAsciiReply frame_testbed reply_bad_hex_tail calibrated
     = Returned 0 (store_calibration (mkFrame 1 0 0)).
Proof.
  assert (E : parseAsciiReply frame_testbed reply_bad_decimal calibrated
              = Returned 0 (store_calibration frame_zero)) by reflexivity.
  split; [reflexivity|]. split; [reflexivity|]. split; [exact E|].
  rewrite E. split; [|split; [|repeat split]].
  - cbn. intros H. now apply H.
  - cbn [object_after]. unfold calibrated. intros H.
    apply store_calibration_amplCorr in H. discriminate H.
Qed.

(** C9, amended.  For every 5-token reply in which some value token
    (index 2, 3 or 4) is empty or begins with a character that is
    neither '+', '-', white space nor a hexadecimal digit,
    [parseAsciiReply] ends with an exception of [std::stoul], and the
    object is left as it was. *)
Theorem no_number_throws
    (indet : CalibrationFrame) (replyStr : string) (self : AngleCompensator)
    (h0 h1 t0 t1 t2 : string) :
  split_reply replyStr = [h0; h1; t0; t1; t2] ->
  number_head (first_char t0) = false
  \/ number_head (first_char t1) = false
  \/ number_head (first_char t2) = false ->
  exists e, parseAsciiReply indet replyStr self = Thrown e self.
Proof.
  intros Hsplit Hbad. unfold parseAsciiReply.
  rewrite (decode_locals_five _ _ _ _ _ _ _ Hsplit).
  destruct Hbad as [H|[H|H]].
  - rewrite (parse_value_no_number _ _ H). now eexists.
  - destruct (parse_value t0 0); [now eexists|].
    rewrite (parse_value_no_number _ _ H). now eexists.
  - destruct (parse_value t0 0); [now eexists|].
    destruct (parse_value t1 0); [now eexists|].
    rewrite (parse_value_no_number _ _ H). now eexists.
Qed.

Lemma no_number_throws_witness :
  split_reply reply_bad_hex_head = ["sRA"; "MCAngleCompSin"; "G1"; "0"; "0"]
  /\ number_head (first_char "G1") = false
  /\ exists e, parseAsciiReply frame_zero reply_bad_hex_head calibrated
               = Thrown e calibrated.
Proof.
  assert (S : split_reply reply_bad_hex_head
              = ["sRA"; "MCAngleCompSin"; "G1"; "0"; "0"]) by reflexivity.
  assert (B : number_head (first_char "G1") = false) by reflexivity.
  split; [exact S | split; [exact B|]].
  exact (no_number_throws frame_zero reply_bad_hex_head calibrated
           _ _ _ _ _ S (or_introl B)).
Defined.

(** * Further properties of the code *)

(** ** The compensation formulas *)

Section CompensationBounds.

Local Open Scope R_scope.

Lemma scaled_sin_bound (a x : R) : Rabs (a * sin x) <= Rabs a.
Proof.
  rewrite Rabs_mult. pose proof (sin_bound_abs x). pose proof (Rabs_pos a).
  rewrite <- (Rmult_1_r (Rabs a)) at 2. apply Rmult_le_compat_l; assumption.
Qed.

(** X1.  The compensated angle differs from the raw angle by at most
    |amplCorr| + |offsetCorrInDeg| in degrees, and by at most
    0.01745329252 |amplCorr| + |offsetCorrInRad| in radians; an object
    with amplitude 0 and offset 0 returns every angle as it is,
    whatever its phase. *)
Theorem compensation_is_bounded (self : AngleCompensator) (x : R) :
  Rabs (compensateAngleInDeg self x - x)
  <= Rabs (amplCorr self) + Rabs (offsetCorrInDeg self)
  /\ Rabs (compensateAngleInRad self x - x)
     <= 0.01745329252 * Rabs (amplCorr self) + Rabs (offsetCorrInRad self)
  /\ (amplCorr self = 0 -> offsetCorrInDeg self = 0 ->
      compensateAngleInDeg self x = x)
  /\ (amplCorr self = 0 -> offsetCorrInRad self = 0 ->
      compensateAngleInRad self x = x).
Proof.
  unfold compensateAngleInDeg, compensateAngleInRad.
  split; [|split; [|split]].
  - match goal with |- Rabs (x + ?t + ?o - x) <= _ =>
      replace (x + t + o - x) with (t + o) by ring;
      apply Rle_trans with (1 := Rabs_triang t o) end.
    apply Rplus_le_compat_r. apply scaled_sin_bound.
  - match goal with |- Rabs (x + ?t + ?o - x) <= _ =>
      replace (x + t + o - x) with (t + o) by ring;
      apply Rle_trans with (1 := Rabs_triang t o) end.
    apply Rplus_le_compat_r. rewrite Rmult_assoc, Rabs_mult.
    rewrite (Rabs_right 0.01745329252) by lra.
    apply Rmult_le_compat_l; [lra | apply scaled_sin_bound].
  - intros -> ->. ring.
  - intros -> ->. ring.
Qed.

Lemma compensation_is_bounded_witness :
  amplCorr (store_calibration frame_zero) = 0
  /\ offsetCorrInDeg (store_calibration frame_zero) = 0
  /\ compensateAngleInDeg (store_calibration frame_zero) 90 = 90.
Proof.
  assert (A : amplCorr (store_calibration frame_zero) = 0) by (cbn; lra).
  assert (O : offsetCorrInDeg (store_calibration frame_zero) = 0) by (cbn; lra).
  split; [exact A | split; [exact O|]].
  exact (proj1 (proj2 (proj2
           (compensation_is_bounded (store_calibration frame_zero) 90))) A O).
Defined.





End CompensationBounds.

(** ** What the parser stores *)

Section Stored.

Local Open Scope R_scope.

Lemma degree_correction_le (self : AngleCompensator) (x : R) :
  Rabs (compensateAngleInDeg self x - x)
  <= Rabs (amplCorr self) + Rabs (offsetCorrInDeg self).
Proof.
  unfold compensateAngleInDeg.
  match goal with |- Rabs (x + ?t + ?o - x) <= _ =>
    replace (x + t + o - x) with (t + o) by ring;
    apply Rle_trans with (1 := Rabs_triang t o) end.
  apply Rplus_le_compat_r. apply scaled_sin_bound.
Qed.

Lemma units_consistent_store (f : CalibrationFrame) :
  units_consistent (store_calibration f).
Proof. split; reflexivity. Qed.

(** The masked value, cast, is in the range of the signed type. *)
Lemma to_signed_land_range (w x : Z) :
  (0 < w)%Z ->
  (- 2 ^ (w - 1) <= Int.to_signed w (Z.land (2 ^ w - 1) x) < 2 ^ (w - 1))%Z.
Proof.
  intros Hw.
  replace (2 ^ w - 1)%Z with (Z.ones w) by (rewrite Z.ones_equiv; lia).
  rewrite Z.land_comm, Z.land_ones by lia.
  rewrite to_signed_mod by assumption.
  now apply twos_complement_range.
Qed.

Lemma scaled_range (z lo hi : Z) :
  (lo <= z <= hi)%Z -> IZR lo / 10000 <= 1 / 10000 * IZR z <= IZR hi / 10000.
Proof.
  intros [H1 H2]. apply IZR_le in H1. apply IZR_le in H2. lra.
Qed.

(** After five tokens the locals are in the range of their types. *)
Lemma decode_locals_range (indet f : CalibrationFrame) (replyStr : string) :
  List.length (split_reply replyStr) = 5%nat ->
  decode_locals indet replyStr = inr f ->
  (- 32768 <= ampl10000th f <= 32767
   /\ - 2147483648 <= phase10000th f <= 2147483647
   /\ - 32768 <= offset10000th f <= 32767)%Z.
Proof.
  intros Hlen. destruct (split_reply replyStr) as [|h0 [|h1 [|t0 [|t1 [|t2 [|]]]]]] eqn:S;
    try discriminate Hlen.
  rewrite (decode_locals_five _ _ _ _ _ _ _ S).
  destruct (parse_value t0 0) as [|v0]; [discriminate|].
  destruct (parse_value t1 0) as [|v1]; [discriminate|].
  destruct (parse_value t2 0) as [|v2]; [discriminate|].
  intros H. apply (f_equal (fun r => match r with inr g => g | inl _ => f end)) in H.
  subst f. cbn [ampl10000th phase10000th offset10000th].
  pose proof (to_signed_land_range 16 v0 ltac:(lia)) as R0.
  pose proof (to_signed_land_range 32 v1 ltac:(lia)) as R1.
  pose proof (to_signed_land_range 16 v2 ltac:(lia)) as R2.
  change (2 ^ 16 - 1)%Z with 0xFFFF%Z in *.
  change (2 ^ 32 - 1)%Z with 0xFFFFFFFF%Z in *.
  change (2 ^ (16 - 1))%Z with 32768%Z in *.
  change (2 ^ (32 - 1))%Z with 2147483648%Z in *.
  lia.
Qed.

(** X5.  Both parsers replace the calibration as a whole or not at
    all.  When the call ends with an exception the object is the one
    it was; when it returns, the five members are all new, they do not
    depend on what the object held before, and the radian members are
    the degree members times [M_PI / 180]. *)
Theorem calibration_is_replaced_as_a_whole
    (indet : CalibrationFrame) (isBinary : bool) (replyVec : list byte)
    (replyStr : string) (self : AngleCompensator) :
  match parseAsciiReply indet replyStr self with
  | Returned rc self' =>
      units_consistent self'
      /\ forall other, parseAsciiReply indet replyStr other = Returned rc self'
  | Thrown e self' =>
      self' = self
      /\ forall other, parseAsciiReply indet replyStr other = Thrown e other
  end
  /\ match parseReply indet isBinary replyVec self with
     | Returned rc self' =>
         units_consistent self'
         /\ forall other, parseReply indet isBinary replyVec other = Returned rc self'
     | Thrown e self' =>
         self' = self
         /\ forall other, parseReply indet isBinary replyVec other = Thrown e other
     end.
Proof.
  assert (A : forall s,
             match parseAsciiReply indet s self with
             | Returned rc self' =>
                 units_consistent self'
                 /\ forall other, parseAsciiReply indet s other = Returned rc self'
             | Thrown e self' =>
                 self' = self
                 /\ forall other, parseAsciiReply indet s other = Thrown e other
             end).
  { intros s. unfold parseAsciiReply.
    destruct (decode_locals indet s) as [e|f].
    - split; reflexivity.
    - split; [apply units_consistent_store | reflexivity]. }
  split; [apply A|].
  rewrite parseReply_as_parseAsciiReply.
  specialize (A (if isBinary then binary_to_ascii replyVec else EmptyString)).
  destruct (parseAsciiReply indet _ self) as [rc self'|e self'];
    destruct A as [A1 A2]; (split; [exact A1|]);
    intros other; rewrite parseReply_as_parseAsciiReply; apply A2.
Qed.

(** X6.  Whenever [parseAsciiReply] returns from a reply of five
    tokens, the stored amplitude and offset lie in [-3.2768, 3.2767]
    and the stored phase in [-214748.3648, 214748.3647] (degrees),
    whatever the value tokens were; the compensation in degrees then
    moves no angle by more than 6.5536. *)
Theorem stored_calibration_is_bounded
    (indet : CalibrationFrame) (replyStr : string)
    (self self' : AngleCompensator) (rc : Z) :
  List.length (split_reply replyStr) = 5%nat ->
  parseAsciiReply indet replyStr self = Returned rc self' ->
  -3.2768 <= amplCorr self' <= 3.2767
  /\ -214748.3648 <= phaseCorrInDeg self' <= 214748.3647
  /\ -3.2768 <= offsetCorrInDeg self' <= 3.2767
  /\ forall x, Rabs (compensateAngleInDeg self' x - x) <= 6.5536.
Proof.
  intros Hlen. unfold parseAsciiReply.
  destruct (decode_locals indet replyStr) as [e|f] eqn:D; [discriminate|].
  intros H. inversion H; subst rc self'.
  destruct (decode_locals_range _ _ _ Hlen D) as (Ra & Rp & Ro).
  apply scaled_range in Ra, Rp, Ro.
  assert (Ba : -3.2768 <= amplCorr (store_calibration f) <= 3.2767)
    by (cbn [store_calibration amplCorr]; lra).
  assert (Bo : -3.2768 <= offsetCorrInDeg (store_calibration f) <= 3.2767)
    by (cbn [store_calibration offsetCorrInDeg]; lra).
  split; [exact Ba|]. split; [cbn [store_calibration phaseCorrInDeg]; lra|].
  split; [exact Bo|]. intros x.
  apply Rle_trans with (1 := degree_correction_le _ x).
  assert (Rabs (amplCorr (store_calibration f)) <= 3.2768) by (apply Rabs_le; lra).
  assert (Rabs (offsetCorrInDeg (store_calibration f)) <= 3.2768) by (apply Rabs_le; lra).
  lra.
Qed.

Lemma stored_calibration_is_bounded_witness :
  List.length (split_reply reply_bad_hex_tail) = 5%nat
  /\ parseAsciiReply frame_zero reply_bad_hex_tail calibrated
     = Returned 0 (store_calibration (mkFrame 1 0 0))
  /\ -3.2768 <= amplCorr (store_calibration (mkFrame 1 0 0)) <= 3.2767.
Proof.
  assert (L : List.length (split_reply reply_bad_hex_tail) = 5%nat) by reflexivity.
  assert (E : parseAsciiReply frame_zero reply_bad_hex_tail calibrated
              = Returned 0 (store_calibration (mkFrame 1 0 0))) by reflexivity.
  split; [exact L | split; [exact E|]].
  exact (proj1 (stored_calibration_is_bounded _ _ _ _ _ L E)).
Defined.

End Stored.

(** ** What the parser reads and what it does not *)

Section Reading.

Lemma twos_complement_congr (w v v' : Z) :
  0 < w -> (v - v') mod 2 ^ w = 0 -> twos_complement w v = twos_complement w v'.
Proof.
  intros Hw H. rewrite <- !to_signed_mod by assumption. f_equal.
  assert (P : 0 < 2 ^ w) by (apply Z.pow_pos_nonneg; lia).
  apply Z.mod_divide in H; [|lia]. destruct H as [q Hq].
  replace v with (v' + q * 2 ^ w) by lia.
  apply Z.mod_add. lia.
Qed.

(** The locals after five tokens whose value tokens are well-formed
    literals. *)
Lemma decode_locals_literals (indet : CalibrationFrame) (replyStr : string)
    (h0 h1 t0 t1 t2 : string) (v0 v1 v2 : Z) :
  split_reply replyStr = [h0; h1; t0; t1; t2] ->
  literal_value t0 = Some v0 ->
  literal_value t1 = Some v1 ->
  literal_value t2 = Some v2 ->
  decode_locals indet replyStr
  = inr {| ampl10000th := twos_complement 16 v0;
           phase10000th := twos_complement 32 v1;
           offset10000th := twos_complement 16 v2 |}.
Proof.
  intros S L0 L1 L2. rewrite (decode_locals_five _ _ _ _ _ _ _ S).
  rewrite (parse_value_literal _ _ _ L0), (parse_value_literal _ _ _ L1),
    (parse_value_literal _ _ _ L2).
  change 0xFFFF with (2 ^ 16 - 1). change 0xFFFFFFFF with (2 ^ 32 - 1).
  rewrite !narrow_ulong by lia. reflexivity.
Qed.

(** A sign that no digit follows: [sscanf] stores nothing. *)
Lemma parse_value_sign_only (tok : string) (old : Z) :
  sign_without_digit tok = true -> parse_value tok old = inr old.
Proof.
  unfold sign_without_digit, is_sign, parse_value.
  destruct tok as [|c rest]; [discriminate|]. cbn [first_char].
  intros H. apply andb_true_iff in H. destruct H as [Hs Hd]. rewrite Hs.
  assert (Hsp : isspace c = false).
  { apply orb_true_iff in Hs.
    destruct Hs as [E|E]; apply Ascii.eqb_eq in E; subst c; reflexivity. }
  assert (N : scan_digits 10 0 false rest = None).
  { destruct rest as [|c1 rest']; [reflexivity|]. cbn [first_char] in Hd.
    cbn [scan_digits]. destruct (digit_in_base 10 c1); [discriminate Hd | reflexivity]. }
  unfold sscanf_ld. cbn [skip_spaces]. rewrite Hsp. cbn [take_sign].
  apply orb_true_iff in Hs. destruct Hs as [E|E]; apply Ascii.eqb_eq in E; subst c.
  - change (("+" =? "-")%char) with false. change (("+" =? "+")%char) with true.
    cbv beta iota zeta. now rewrite N.
  - change (("-" =? "-")%char) with true. cbv beta iota zeta. now rewrite N.
Qed.

(** A string of hexadecimal digits beyond [ULONG_MAX]. *)
Lemma parse_value_too_large (tok : string) (m old : Z) :
  numeral 16 tok = Some m -> Int.ULONG_MAX < m ->
  parse_value tok old = inl out_of_range.
Proof.
  intros N Hm. destruct (numeral_head _ _ _ N) as (c & rest & d & -> & D).
  unfold parse_value. cbn [first_char].
  destruct (digit_is_no_sign _ _ _ D) as [Em Ep]. rewrite Em, Ep. cbn [orb].
  unfold stoul16, strtoul16. cbn [skip_spaces].
  rewrite (digit_is_no_space _ _ _ D). cbn [take_sign]. rewrite Em, Ep.
  cbv beta iota zeta.
  rewrite (take_hex_prefix_digits _ _ N), (scan_digits_numeral _ _ _ N).
  destruct (Z.ltb_spec Int.ULONG_MAX m); [reflexivity | lia].
Qed.

(** X7.  The two header tokens are never looked at: two replies of
    five tokens with the same three value tokens end the call in the
    same way, whatever their first two tokens are and whatever the
    unassigned locals hold. *)
Theorem header_tokens_are_ignored
    (indet indet' : CalibrationFrame) (replyStr replyStr' : string)
    (self : AngleCompensator) (h0 h1 k0 k1 t0 t1 t2 : string) :
  split_reply replyStr = [h0; h1; t0; t1; t2] ->
  split_reply replyStr' = [k0; k1; t0; t1; t2] ->
  parseAsciiReply indet replyStr self = parseAsciiReply indet' replyStr' self.
Proof.
  intros S S'. unfold parseAsciiReply.
  rewrite (decode_locals_five _ _ _ _ _ _ _ S), (decode_locals_five _ _ _ _ _ _ _ S').
  reflexivity.
Qed.

Lemma header_tokens_are_ignored_witness :
  split_reply reply_hex = ["sRA"; "MCAngleCompSin"; "765"; "FFFCC9B9"; "FFFFFF0B"]
  /\ split_reply reply_other_header = ["x"; "y"; "765"; "FFFCC9B9"; "FFFFFF0B"]
  /\ parseAsciiReply frame_zero reply_hex calibrated
     = parseAsciiReply frame_testbed reply_other_header calibrated.
Proof.
  assert (S : split_reply reply_hex
              = ["sRA"; "MCAngleCompSin"; "765"; "FFFCC9B9"; "FFFFFF0B"]) by reflexivity.
  assert (S' : split_reply reply_other_header
               = ["x"; "y"; "765"; "FFFCC9B9"; "FFFFFF0B"]) by reflexivity.
  split; [exact S | split; [exact S'|]].
  exact (header_tokens_are_ignored frame_zero frame_testbed _ _ calibrated
           _ _ _ _ _ _ _ S S').
Defined.

(** X8.  Only the low bits of a value count, not the way it is
    written: two replies of five tokens whose well-formed value tokens
    agree modulo 2^16 (amplitude), 2^32 (phase) and 2^16 (offset) set
    the same calibration.  So a signed decimal token and the
    hexadecimal token of its two's-complement pattern are
    interchangeable. *)
Theorem notation_is_irrelevant
    (indet indet' : CalibrationFrame) (replyStr replyStr' : string)
    (self : AngleCompensator)
    (h0 h1 t0 t1 t2 k0 k1 u0 u1 u2 : string) (v0 v1 v2 w0 w1 w2 : Z) :
  split_reply replyStr = [h0; h1; t0; t1; t2] ->
  split_reply replyStr' = [k0; k1; u0; u1; u2] ->
  literal_value t0 = Some v0 -> literal_value u0 = Some w0 ->
  literal_value t1 = Some v1 -> literal_value u1 = Some w1 ->
  literal_value t2 = Some v2 -> literal_value u2 = Some w2 ->
  (v0 - w0) mod 2 ^ 16 = 0 ->
  (v1 - w1) mod 2 ^ 32 = 0 ->
  (v2 - w2) mod 2 ^ 16 = 0 ->
  parseAsciiReply indet replyStr self = parseAsciiReply indet' replyStr' self.
Proof.
  intros S S' L0 M0 L1 M1 L2 M2 C0 C1 C2. unfold parseAsciiReply.
  rewrite (decode_locals_literals _ _ _ _ _ _ _ _ _ _ S L0 L1 L2).
  rewrite (decode_locals_literals _ _ _ _ _ _ _ _ _ _ S' M0 M1 M2).
  rewrite (twos_complement_congr 16 v0 w0), (twos_complement_congr 32 v1 w1),
    (twos_complement_congr 16 v2 w2) by (assumption || lia).
  reflexivity.
Qed.

Lemma notation_is_irrelevant_witness :
  literal_value "+1893" = Some 1893 /\ literal_value "765" = Some 1893
  /\ literal_value "-210503" = Some (-210503)
  /\ literal_value "FFFCC9B9" = Some 4294756793
  /\ literal_value "-245" = Some (-245)
  /\ literal_value "FFFFFF0B" = Some 4294967051
  /\ parseAsciiReply frame_zero reply_dec calibrated
     = parseAsciiReply frame_zero reply_hex calibrated.
Proof.
  assert (S : split_reply reply_dec
              = ["sRA"; "MCAngleCompSin"; "+1893"; "-210503"; "-245"]) by reflexivity.
  assert (S' : split_reply reply_hex
               = ["sRA"; "MCAngleCompSin"; "765"; "FFFCC9B9"; "FFFFFF0B"]) by reflexivity.
  assert (L0 : literal_value "+1893" = Some 1893) by reflexivity.
  assert (M0 : literal_value "765" = Some 1893) by reflexivity.
  assert (L1 : literal_value "-210503" = Some (-210503)) by reflexivity.
  assert (M1 : literal_value "FFFCC9B9" = Some 4294756793) by reflexivity.
  assert (L2 : literal_value "-245" = Some (-245)) by reflexivity.
  assert (M2 : literal_value "FFFFFF0B" = Some 4294967051) by reflexivity.
  repeat (split; [assumption|]).
  exact (notation_is_irrelevant frame_zero frame_zero _ _ calibrated
           _ _ _ _ _ _ _ _ _ _ _ _ _ _ _ _ S S' L0 M0 L1 M1 L2 M2
           eq_refl eq_refl eq_refl).
Defined.

(** X9.  A reply of five tokens whose three value tokens all begin
    with '+' or '-' never ends in an exception, whatever follows the
    signs: the result of [sscanf] is not looked at and the call returns
    0. *)
Theorem signed_tokens_never_throw
    (indet : CalibrationFrame) (replyStr : string) (self : AngleCompensator)
    (h0 h1 t0 t1 t2 : string) :
  split_reply replyStr = [h0; h1; t0; t1; t2] ->
  is_sign (first_char t0) = true ->
  is_sign (first_char t1) = true ->
  is_sign (first_char t2) = true ->
  exists self', parseAsciiReply indet replyStr self = Returned 0 self'.
Proof.
  intros S H0 H1 H2. unfold parseAsciiReply.
  rewrite (decode_locals_five _ _ _ _ _ _ _ S).
  destruct (parse_value_signed t0 0 H0) as [v0 ->].
  destruct (parse_value_signed t1 0 H1) as [v1 ->].
  destruct (parse_value_signed t2 0 H2) as [v2 ->].
  eexists. reflexivity.
Qed.

Lemma signed_tokens_never_throw_witness :
  split_reply reply_signs_only = ["sRA"; "MCAngleCompSin"; "+"; "-x"; "+-1"]
  /\ exists self',
       parseAsciiReply frame_testbed reply_signs_only calibrated = Returned 0 self'.
Proof.
  assert (S : split_reply reply_signs_only
              = ["sRA"; "MCAngleCompSin"; "+"; "-x"; "+-1"]) by reflexivity.
  split; [exact S|].
  exact (signed_tokens_never_throw frame_testbed _ calibrated _ _ _ _ _ S
           eq_refl eq_refl eq_refl).
Defined.

(** X10.  A reply of five tokens whose three value tokens are a sign
    that no decimal digit follows sets amplitude, phase and offset to
    0, the values [helperArr] was initialised with; from then on both
    compensation functions return every angle unchanged. *)
Theorem signs_without_digits_store_zero
    (indet : CalibrationFrame) (replyStr : string) (self : AngleCompensator)
    (h0 h1 t0 t1 t2 : string) :
  split_reply replyStr = [h0; h1; t0; t1; t2] ->
  sign_without_digit t0 = true ->
  sign_without_digit t1 = true ->
  sign_without_digit t2 = true ->
  parseAsciiReply indet replyStr self = Returned 0 (store_calibration frame_zero)
  /\ forall x : R,
       compensateAngleInDeg (store_calibration frame_zero) x = x
       /\ compensateAngleInRad (store_calibration frame_zero) x = x.
Proof.
  intros S H0 H1 H2. split.
  - unfold parseAsciiReply. rewrite (decode_locals_five _ _ _ _ _ _ _ S).
    rewrite !parse_value_sign_only by assumption. reflexivity.
  - intros x. unfold compensateAngleInDeg, compensateAngleInRad.
    cbn [store_calibration amplCorr phaseCorrInDeg offsetCorrInDeg
           phaseCorrInRad offsetCorrInRad frame_zero
           ampl10000th phase10000th offset10000th].
    replace (1 / 10000 * 0)%R with 0%R by lra.
    split; unfold Rdiv; ring.
Qed.

Lemma signs_without_digits_store_zero_witness :
  split_reply reply_signs_only = ["sRA"; "MCAngleCompSin"; "+"; "-x"; "+-1"]
  /\ parseAsciiReply frame_testbed reply_signs_only calibrated
     = Returned 0 (store_calibration frame_zero).
Proof.
  assert (S : split_reply reply_signs_only
              = ["sRA"; "MCAngleCompSin"; "+"; "-x"; "+-1"]) by reflexivity.
  split; [exact S|].
  exact (proj1 (signs_without_digits_store_zero frame_testbed _ calibrated
                  _ _ _ _ _ S eq_refl eq_refl eq_refl)).
Defined.

(** X11.  A value token without sign that is a hexadecimal number
    above 2^64 - 1 ends the call with [std::out_of_range]: when it is
    the first value token, whatever the other two are, and the object
    is left as it was. *)
Theorem oversized_hex_is_out_of_range
    (indet : CalibrationFrame) (replyStr : string) (self : AngleCompensator)
    (h0 h1 t0 t1 t2 : string) (m : Z) :
  split_reply replyStr = [h0; h1; t0; t1; t2] ->
  numeral 16 t0 = Some m ->
  2 ^ 64 <= m ->
  parseAsciiReply indet replyStr self = Thrown out_of_range self.
Proof.
  intros S N Hm. unfold parseAsciiReply.
  rewrite (decode_locals_five _ _ _ _ _ _ _ S).
  rewrite (parse_value_too_large _ _ _ N); [reflexivity|].
  unfold Int.ULONG_MAX. lia.
Qed.

Lemma oversized_hex_is_out_of_range_witness :
  numeral 16 "10000000000000000" = Some (2 ^ 64)
  /\ parseAsciiReply frame_zero reply_huge_hex calibrated
     = Thrown out_of_range calibrated.
Proof.
  assert (S : split_reply reply_huge_hex
              = ["sRA"; "MCAngleCompSin"; "10000000000000000"; "0"; "0"])
    by reflexivity.
  assert (N : numeral 16 "10000000000000000" = Some (2 ^ 64)) by reflexivity.
  split; [exact N|].
  exact (oversized_hex_is_out_of_range frame_zero _ calibrated _ _ _ _ _ _
           S N (Z.le_refl _)).
Defined.

End Reading.

(** ** Cutting the reply into tokens *)

Section Tokens.

Lemma string_of_list_ascii_app (xs ys : list ascii) :
  string_of_list_ascii (xs ++ ys)
  = (string_of_list_ascii xs ++ string_of_list_ascii ys)%string.
Proof. induction xs as [|x xs IH]; cbn; [reflexivity | now rewrite IH]. Qed.

Lemma rev_string_cons (c : ascii) (tok : list ascii) :
  rev_string (c :: tok) = (rev_string tok ++ String c EmptyString)%string.
Proof. unfold rev_string. cbn [rev]. apply string_of_list_ascii_app. Qed.

Lemma rev_string_of_string (w : string) (tok : list ascii) :
  rev_string (rev (list_ascii_of_string w) ++ tok)%list
  = (rev_string tok ++ w)%string.
Proof.
  unfold rev_string. rewrite rev_app_distr, rev_involutive.
  now rewrite string_of_list_ascii_app, string_of_list_ascii_of_string.
Qed.

Lemma getline_loop_nil (delim : ascii) (s : string) (tok : list ascii) :
  getline_loop delim tok s = [] -> tok = [] /\ s = EmptyString.
Proof.
  revert tok. induction s as [|c s IH]; intros tok; cbn.
  - destruct tok; [auto | discriminate].
  - destruct (c =? delim)%char; [discriminate|].
    intros H. apply IH in H. destruct H as [H _]. discriminate H.
Qed.

Lemma chop_delim_cons (delim c : ascii) (s : string) :
  (c =? delim)%char = false ->
  chop_delim delim (String c s) = String c (chop_delim delim s).
Proof. intros H. destruct s; cbn; [now rewrite H | reflexivity]. Qed.

(** Joining what [getline] cut gives the text back, less the
    delimiter at its end. *)
Lemma concat_getline_loop (delim : ascii) (s : string) (tok : list ascii) :
  String.concat (String delim EmptyString) (getline_loop delim tok s)
  = (rev_string tok ++ chop_delim delim s)%string.
Proof.
  revert tok. induction s as [|c s IH]; intros tok.
  - cbn. destruct tok; cbn [String.concat]; [reflexivity|].
    now rewrite append_nil_r.
  - cbn [getline_loop]. destruct (c =? delim)%char eqn:E.
    + cbn [String.concat].
      destruct (getline_loop delim [] s) as [|t ts] eqn:G.
      * apply getline_loop_nil in G. destruct G as [_ ->].
        cbn [chop_delim]. rewrite E. now rewrite append_nil_r.
      * rewrite <- G, IH. apply Ascii.eqb_eq in E. subst c.
        destruct s as [|c' s']; [discriminate G|]. reflexivity.
    + rewrite IH, rev_string_cons, append_assoc, chop_delim_cons by assumption.
      reflexivity.
Qed.

(** The characters of a token are characters of the text other than
    the delimiter. *)
Lemma getline_loop_tokens (delim : ascii) (p : ascii -> bool) (s : string) :
  forall tok : list ascii,
    forallb p tok = true ->
    all_chars (fun c => (c =? delim)%char || p c) s = true ->
    Forall (fun t => all_chars p t = true) (getline_loop delim tok s).
Proof.
  assert (R : forall tok, forallb p tok = true -> all_chars p (rev_string tok) = true).
  { intros tok H. unfold rev_string.
    assert (H' : forallb p (rev tok) = true).
    { apply forallb_forall. intros x Hx. apply in_rev in Hx.
      now apply (proj1 (forallb_forall p tok) H). }
    revert H'. generalize (rev tok). intros l.
    induction l as [|x l IHl]; cbn; [reflexivity|].
    intros Hl. apply andb_true_iff in Hl. destruct Hl as [-> Hl]. now apply IHl. }
  induction s as [|c s IH]; intros tok Ht Hs; cbn.
  - destruct tok; constructor; [now apply R | constructor].
  - cbn in Hs. apply andb_true_iff in Hs. destruct Hs as [Hc Hs].
    destruct (c =? delim)%char.
    + constructor; [now apply R | now apply IH].
    + apply IH; [|assumption]. cbn. cbn in Hc. now rewrite Hc, Ht.
Qed.

Lemma c_str_no_nul (s : string) : count_char NUL (c_str s) = 0%nat.
Proof.
  induction s as [|c s IH]; cbn; [reflexivity|].
  destruct (c =? NUL)%char eqn:E; cbn; [reflexivity|]. now rewrite E.
Qed.

Lemma c_str_id (s : string) : count_char NUL s = 0%nat -> c_str s = s.
Proof.
  induction s as [|c s IH]; cbn; [reflexivity|].
  destruct (c =? NUL)%char; [discriminate|]. intros H. now rewrite IH.
Qed.

(** What follows a NUL is not read. *)
Lemma c_str_cut (s t : string) : c_str (s ++ String NUL t) = c_str s.
Proof.
  induction s as [|c s IH]; cbn; [reflexivity|].
  destruct (c =? NUL)%char; [reflexivity | now rewrite IH].
Qed.

Lemma no_nul_chars (s : string) :
  count_char NUL s = 0%nat ->
  all_chars (fun c => (c =? " ")%char || token_char c) s = true.
Proof.
  induction s as [|c s IH]; cbn; [reflexivity|].
  unfold token_char at 1. destruct (c =? NUL)%char; [discriminate|].
  intros H. rewrite IH by assumption. now destruct (c =? " ")%char.
Qed.

(** X12.  The tokens are the pieces of the C string between single
    spaces: joined again with single spaces they give the text up to
    its first NUL, less one space at its very end if there is one; no
    token contains a space or a NUL.  A space at the end of the reply
    therefore adds no token, while a space at its start or two spaces
    in a row add an empty one. *)
Theorem tokens_rebuild_the_reply (replyStr : string) :
  String.concat " " (split_reply replyStr) = chop_delim " " (c_str replyStr)
  /\ Forall (fun t => all_chars token_char t = true) (split_reply replyStr)
  /\ split_reply "a b " = ["a"; "b"]
  /\ split_reply " a  b" = [""; "a"; ""; "b"].
Proof.
  unfold split_reply. split; [|split; [|split; reflexivity]].
  - now rewrite concat_getline_loop.
  - apply getline_loop_tokens; [reflexivity|].
    apply no_nul_chars, c_str_no_nul.
Qed.

(** A piece without delimiter is read into the token. *)
Lemma getline_loop_piece (delim : ascii) (w s : string) :
  count_char delim w = 0%nat ->
  forall tok : list ascii,
    getline_loop delim tok (w ++ s)
    = getline_loop delim (rev (list_ascii_of_string w) ++ tok)%list s.
Proof.
  induction w as [|c w IH]; intros Hw tok; [reflexivity|].
  cbn in Hw. cbn [append getline_loop list_ascii_of_string rev].
  destruct (c =? delim)%char; [discriminate Hw|].
  rewrite IH by assumption. now rewrite <- app_assoc.
Qed.

Lemma getline_loop_token (delim : ascii) (w s : string) :
  count_char delim w = 0%nat ->
  getline_loop delim [] (w ++ String delim s) = w :: getline_loop delim [] s.
Proof.
  intros Hw. rewrite getline_loop_piece by assumption.
  cbn [getline_loop]. rewrite Ascii.eqb_refl.
  now rewrite rev_string_of_string.
Qed.

Lemma getline_loop_last (delim : ascii) (c : ascii) (w : string) :
  count_char delim (String c w) = 0%nat ->
  getline_loop delim [] (String c w) = [String c w].
Proof.
  intros Hw. rewrite <- (append_nil_r (String c w)) at 1.
  rewrite getline_loop_piece by assumption. cbn [getline_loop].
  destruct (rev (list_ascii_of_string (String c w)) ++ [])%list eqn:E.
  - apply (f_equal (@List.length ascii)) in E.
    rewrite length_app, length_rev in E. cbn in E. lia.
  - rewrite <- E, rev_string_of_string. reflexivity.
Qed.

End Tokens.

(** ** The binary reply *)

Section Binary.

Lemma byte_value_bounds (b : byte) : 0 <= byte_value b <= 255.
Proof.
  unfold byte_value. pose proof (Byte.to_N_bounded b). lia.
Qed.

Lemma big_endian_bounds (bs : list byte) :
  0 <= big_endian bs < 256 ^ Z.of_nat (List.length bs).
Proof.
  induction bs as [|b bs IH]; cbn [big_endian List.length]; [cbn; lia|].
  pose proof (byte_value_bounds b).
  rewrite Nat2Z.inj_succ, Z.pow_succ_r by lia. nia.
Qed.

Lemma pow16_256 (n : nat) : 16 ^ Z.of_nat (2 * n) = 256 ^ Z.of_nat n.
Proof.
  replace (Z.of_nat (2 * n)) with (2 * Z.of_nat n) by lia.
  rewrite Z.pow_mul_r by lia. reflexivity.
Qed.

(** The text of a group of bytes is the hexadecimal notation of
    their big-endian number, two digits a byte. *)
Lemma hex_group_digits (bs : list byte) :
  exists ds : list Z,
    digits_of 16 (hex_group bs) = Some ds
    /\ List.length ds = (2 * List.length bs)%nat
    /\ positional 16 ds = big_endian bs.
Proof.
  induction bs as [|b bs (ds & D & L & P)].
  - exists []. repeat split.
  - destruct (sprintf_02X_digits b) as (c1 & c2 & E & _ & _ & V1 & V2).
    pose proof (byte_value_bounds b) as Hb. unfold byte_value in Hb.
    assert (D1 : digit_in_base 16 c1 = Some (byte_value b / 16)).
    { unfold digit_in_base, byte_value. rewrite V1.
      destruct (Z.ltb_spec (Z.of_N (Byte.to_N b) / 16) 16) as [|H];
        [reflexivity|].
      exfalso. assert (Z.of_N (Byte.to_N b) / 16 <= 255 / 16)
        by (apply Z.div_le_mono; lia).
      change (255 / 16) with 15 in *. lia. }
    assert (D2 : digit_in_base 16 c2 = Some (byte_value b mod 16)).
    { unfold digit_in_base, byte_value. rewrite V2.
      pose proof (Z.mod_pos_bound (Z.of_N (Byte.to_N b)) 16 ltac:(lia)).
      destruct (Z.ltb_spec (Z.of_N (Byte.to_N b) mod 16) 16); [reflexivity | lia]. }
    exists (byte_value b / 16 :: byte_value b mod 16 :: ds).
    cbn [hex_group]. rewrite E. cbn [append digits_of]. rewrite D1, D2, D.
    split; [reflexivity|]. split; [cbn [List.length]; lia|].
    cbn [positional List.length big_endian]. rewrite <- P, L.
    rewrite Nat2Z.inj_succ, Z.pow_succ_r, pow16_256 by lia.
    pose proof (Z.div_mod (byte_value b) 16 ltac:(lia)). nia.
Qed.

Lemma numeral_hex_group (b : byte) (bs : list byte) :
  numeral 16 (hex_group (b :: bs)) = Some (big_endian (b :: bs)).
Proof.
  destruct (hex_group_digits (b :: bs)) as (ds & D & _ & P).
  unfold numeral. rewrite D.
  destruct (sprintf_02X_digits b) as (c1 & c2 & E & _).
  cbn [hex_group]. rewrite E. cbn [append option_map]. now rewrite P.
Qed.

Lemma literal_value_hex_group (b : byte) (bs : list byte) :
  (List.length bs < 8)%nat ->
  literal_value (hex_group (b :: bs)) = Some (big_endian (b :: bs)).
Proof.
  intros Hlen. pose proof (numeral_hex_group b bs) as N.
  destruct (numeral_head _ _ _ N) as (c & rest & d & E & D).
  unfold literal_value. rewrite E in *.
  destruct (digit_is_no_sign _ _ _ D) as [-> ->].
  rewrite N. unfold in_range.
  pose proof (big_endian_bounds (b :: bs)) as B.
  assert (256 ^ Z.of_nat (List.length (b :: bs)) <= 256 ^ 8)
    by (apply Z.pow_le_mono_r; cbn [List.length]; lia).
  change (256 ^ 8) with (2 ^ 64) in *. unfold Int.ULONG_MAX.
  destruct (Z.leb_spec 0 (big_endian (b :: bs))); [|lia].
  destruct (Z.leb_spec (big_endian (b :: bs)) (2 ^ 64 - 1)); [reflexivity | lia].
Qed.

(** X13.  Formatting and reading back: for one to eight bytes,
    [std::stoul] in base 16 on their [%02X] text returns their
    big-endian number, without an exception. *)
Theorem hex_text_reads_back (bs : list byte) :
  (1 <= List.length bs <= 8)%nat ->
  stoul16 (hex_group bs) = inr (big_endian bs).
Proof.
  intros Hlen. destruct bs as [|b bs]; [cbn in Hlen; lia|].
  assert (L : literal_value (hex_group (b :: bs)) = Some (big_endian (b :: bs)))
    by (apply literal_value_hex_group; cbn in Hlen; lia).
  pose proof (parse_value_literal _ _ 0 L) as P.
  pose proof (numeral_hex_group b bs) as N.
  destruct (numeral_head _ _ _ N) as (c & rest & d & E & D).
  unfold parse_value in P. rewrite E in P. cbn [first_char] in P.
  destruct (digit_is_no_sign _ _ _ D) as [Em Ep]. rewrite Em, Ep in P.
  cbn [orb] in P. rewrite <- E in P. rewrite P. f_equal.
  unfold Int.to_unsigned. apply Z.mod_small.
  pose proof (big_endian_bounds (b :: bs)) as B.
  assert (256 ^ Z.of_nat (List.length (b :: bs)) <= 256 ^ 8)
    by (apply Z.pow_le_mono_r; lia).
  change (256 ^ 8) with (2 ^ 64) in *. lia.
Qed.

Lemma hex_text_reads_back_witness :
  (1 <= List.length [xff; x0b] <= 8)%nat
  /\ stoul16 (hex_group [xff; x0b]) = inr (big_endian [xff; x0b]).
Proof.
  assert (H : (1 <= List.length [xff; x0b] <= 8)%nat) by (cbn; lia).
  split; [exact H | exact (hex_text_reads_back [xff; x0b] H)].
Defined.

Lemma hex_group_no_nul (bs : list byte) : count_char NUL (hex_group bs) = 0%nat.
Proof.
  induction bs as [|b bs IH]; cbn [hex_group]; [reflexivity|].
  rewrite count_char_append, IH.
  destruct (sprintf_02X_digits b) as (c1 & c2 & -> & H1 & H2 & _).
  cbn. destruct (Ascii.eqb_spec c1 NUL) as [->|]; [discriminate H1|].
  destruct (Ascii.eqb_spec c2 NUL) as [->|]; [discriminate H2 | reflexivity].
Qed.

Lemma token_chars_counts (s : string) :
  all_chars token_char s = true ->
  count_char " " s = 0%nat /\ count_char NUL s = 0%nat.
Proof.
  induction s as [|c s IH]; cbn; [auto|].
  unfold token_char at 1. intros H.
  apply andb_true_iff in H. destruct H as [H Hs].
  apply andb_true_iff in H. destruct H as [H1 H2].
  destruct (IH Hs) as [-> ->].
  destruct (c =? " ")%char; [discriminate H1|].
  destruct (c =? NUL)%char; [discriminate H2|]. auto.
Qed.

Lemma firstn_exact (A : Type) (l r : list A) : firstn (List.length l) (l ++ r) = l.
Proof. induction l as [|x l IH]; cbn; [reflexivity | now rewrite IH]. Qed.

Lemma skipn_exact (A : Type) (l r : list A) : skipn (List.length l) (l ++ r) = r.
Proof. induction l as [|x l IH]; cbn; [reflexivity | exact IH]. Qed.

(** The text for a header followed by twelve bytes. *)
Lemma binary_to_ascii_header (hdr : list byte)
    (b0 b1 b2 b3 b4 b5 b6 b7 b8 b9 b10 b11 : byte) :
  Z.of_nat (List.length hdr) + 12 < 2 ^ 31 ->
  binary_to_ascii (hdr ++ [b0; b1; b2; b3; b4; b5; b6; b7; b8; b9; b10; b11])
  = (raw_chars hdr
     ++ hex_group [b0; b1; b2; b3] ++ " "
     ++ hex_group [b4; b5; b6; b7] ++ " "
     ++ hex_group [b8; b9; b10; b11])%string.
Proof.
  intros Hint.
  assert (L : List.length (hdr ++ [b0; b1; b2; b3; b4; b5; b6; b7; b8; b9; b10; b11])
              = (List.length hdr + 12)%nat)
    by (rewrite length_app; reflexivity).
  rewrite binary_to_ascii_long by (rewrite L; lia).
  rewrite L. replace (List.length hdr + 12 - 12)%nat with (List.length hdr) by lia.
  rewrite firstn_exact, skipn_exact, hex_spaced_twelve. reflexivity.
Qed.

(** X14.  A binary reply made of a header of two tokens, each
    followed by a space, and of twelve data bytes is decoded as three
    big-endian words of four bytes: the amplitude is the signed 16-bit
    number in bytes 2 and 3, the phase the signed 32-bit number in bytes
    4 to 7, the offset the signed 16-bit number in bytes 10 and 11.
    Bytes 0, 1, 8 and 9 of the data have no influence, and the call
    never ends in an exception. *)
Theorem binary_reply_is_decoded
    (indet : CalibrationFrame) (self : AngleCompensator)
    (hdr : list byte) (h0 h1 : string)
    (b0 b1 b2 b3 b4 b5 b6 b7 b8 b9 b10 b11 : byte) :
  raw_chars hdr = (h0 ++ " " ++ h1 ++ " ")%string ->
  all_chars token_char h0 = true ->
  all_chars token_char h1 = true ->
  Z.of_nat (List.length hdr) + 12 < 2 ^ 31 ->
  parseReply indet true
    (hdr ++ [b0; b1; b2; b3; b4; b5; b6; b7; b8; b9; b10; b11]) self
  = Returned 0
      (store_calibration
         {| ampl10000th := twos_complement 16 (big_endian [b2; b3]);
            phase10000th := twos_complement 32 (big_endian [b4; b5; b6; b7]);
            offset10000th := twos_complement 16 (big_endian [b10; b11]) |}).
Proof.
  intros Hhdr T0 T1 Hint.
  destruct (token_chars_counts _ T0) as [S0 N0].
  destruct (token_chars_counts _ T1) as [S1 N1].
  rewrite parseReply_as_parseAsciiReply, binary_to_ascii_header by assumption.
  rewrite Hhdr, !append_assoc.
  set (g1 := hex_group [b0; b1; b2; b3]).
  set (g2 := hex_group [b4; b5; b6; b7]).
  set (g3 := hex_group [b8; b9; b10; b11]).
  assert (S : split_reply (h0 ++ " " ++ h1 ++ " " ++ g1 ++ " " ++ g2 ++ " " ++ g3)
              = [h0; h1; g1; g2; g3]).
  { unfold split_reply. rewrite c_str_id.
    2:{ rewrite !count_char_append, N0, N1.
        unfold g1, g2, g3. rewrite !hex_group_no_nul. reflexivity. }
    change (h0 ++ " " ++ h1 ++ " " ++ g1 ++ " " ++ g2 ++ " " ++ g3)%string
      with (h0 ++ String " " (h1 ++ String " "
              (g1 ++ String " " (g2 ++ String " " g3))))%string.
    rewrite !getline_loop_token
      by (assumption || (unfold g1, g2; apply hex_group_no_space)).
    do 4 f_equal.
    assert (G : count_char " " g3 = 0%nat) by apply hex_group_no_space.
    unfold g3 in *. cbn [hex_group] in *.
    destruct (sprintf_02X_digits b8) as (c1 & c2 & E & _). rewrite E in *.
    cbn [append] in *. now apply getline_loop_last. }
  assert (L1 : literal_value g1 = Some (big_endian [b0; b1; b2; b3]))
    by (apply literal_value_hex_group; cbn; lia).
  assert (L2 : literal_value g2 = Some (big_endian [b4; b5; b6; b7]))
    by (apply literal_value_hex_group; cbn; lia).
  assert (L3 : literal_value g3 = Some (big_endian [b8; b9; b10; b11]))
    by (apply literal_value_hex_group; cbn; lia).
  unfold parseAsciiReply.
  rewrite (decode_locals_literals _ _ _ _ _ _ _ _ _ _ S L1 L2 L3).
  rewrite (twos_complement_congr 16 (big_endian [b0; b1; b2; b3])
             (big_endian [b2; b3])).
  2: lia.
  2:{ cbn [big_endian List.length].
      replace (byte_value b0 * 256 ^ Z.of_nat 3
               + (byte_value b1 * 256 ^ Z.of_nat 2
                  + (byte_value b2 * 256 ^ Z.of_nat 1
                     + (byte_value b3 * 256 ^ Z.of_nat 0 + 0)))
               - (byte_value b2 * 256 ^ Z.of_nat 1
                  + (byte_value b3 * 256 ^ Z.of_nat 0 + 0)))
        with ((byte_value b0 * 256 + byte_value b1) * 2 ^ 16)
        by (change (256 ^ Z.of_nat 3) with 16777216;
            change (256 ^ Z.of_nat 2) with 65536;
            change (2 ^ 16) with 65536; lia).
      apply Z.mod_mul. lia. }
  rewrite (twos_complement_congr 16 (big_endian [b8; b9; b10; b11])
             (big_endian [b10; b11])).
  2: lia.
  2:{ cbn [big_endian List.length].
      replace (byte_value b8 * 256 ^ Z.of_nat 3
               + (byte_value b9 * 256 ^ Z.of_nat 2
                  + (byte_value b10 * 256 ^ Z.of_nat 1
                     + (byte_value b11 * 256 ^ Z.of_nat 0 + 0)))
               - (byte_value b10 * 256 ^ Z.of_nat 1
                  + (byte_value b11 * 256 ^ Z.of_nat 0 + 0)))
        with ((byte_value b8 * 256 + byte_value b9) * 2 ^ 16)
        by (change (256 ^ Z.of_nat 3) with 16777216;
            change (256 ^ Z.of_nat 2) with 65536;
            change (2 ^ 16) with 65536; lia).
      apply Z.mod_mul. lia. }
  reflexivity.
Qed.

Lemma binary_reply_is_decoded_witness :
  raw_chars (bytes_of_string "sRA MCAngleCompSin ")
    = ("sRA" ++ " " ++ "MCAngleCompSin" ++ " ")%string
  /\ parseReply frame_zero true testVec_binary calibrated
     = Returned 0
         (store_calibration
            {| ampl10000th := twos_complement 16 (big_endian [x07; x65]);
               phase10000th := twos_complement 32 (big_endian [xff; xfc; xc9; xb9]);
               offset10000th := twos_complement 16 (big_endian [xff; x0b]) |}).
Proof.
  assert (H : raw_chars (bytes_of_string "sRA MCAngleCompSin ")
              = ("sRA" ++ " " ++ "MCAngleCompSin" ++ " ")%string) by reflexivity.
  split; [exact H|].
  exact (binary_reply_is_decoded frame_zero calibrated
           (bytes_of_string "sRA MCAngleCompSin ") "sRA" "MCAngleCompSin"
           x00 x00 x07 x65 xff xfc xc9 xb9 xff xff xff x0b
           H eq_refl eq_refl eq_refl).
Defined.

(** X15.  A NUL byte among the bytes that are copied as characters
    ends the text that is parsed: when at least twelve bytes follow it,
    [parseReply] in binary mode ends as [parseAsciiReply] on the
    characters before the NUL, and the data bytes are not looked at. *)
Theorem nul_byte_ends_the_reply
    (indet : CalibrationFrame) (self : AngleCompensator)
    (pre rest : list byte) :
  (12 <= List.length rest)%nat ->
  Z.of_nat (List.length (pre ++ x00 :: rest)) < 2 ^ 31 ->
  parseReply indet true (pre ++ x00 :: rest) self
  = parseAsciiReply indet (raw_chars pre) self.
Proof.
  intros H12 Hint.
  assert (L : List.length (pre ++ x00 :: rest)
              = (List.length pre + S (List.length rest))%nat)
    by (rewrite length_app; reflexivity).
  rewrite parseReply_as_parseAsciiReply, binary_to_ascii_long by lia.
  rewrite L.
  replace (List.length pre + S (List.length rest) - 12)%nat
    with (List.length pre + S (List.length rest - 12))%nat by lia.
  rewrite firstn_app_2. cbn [firstn].
  rewrite raw_chars_app.
  change (raw_chars (x00 :: firstn (List.length rest - 12) rest))
    with (String NUL (raw_chars (firstn (List.length rest - 12) rest))).
  rewrite append_assoc. cbn [append].
  unfold parseAsciiReply, decode_locals, split_reply.
  now rewrite c_str_cut.
Qed.

Lemma nul_byte_ends_the_reply_witness :
  (12 <= List.length dataArr)%nat
  /\ parseReply frame_zero true (bytes_of_string "sRA" ++ x00 :: dataArr) calibrated
     = parseAsciiReply frame_zero "sRA" calibrated.
Proof.
  assert (H : (12 <= List.length dataArr)%nat) by (cbn; lia).
  split; [exact H|].
  exact (nul_byte_ends_the_reply frame_zero calibrated
           (bytes_of_string "sRA") dataArr H eq_refl).
Defined.

End Binary.

(** ** Order of the angles *)

Section Order.

Local Open Scope R_scope.






End Order.

(** ** The testbed *)

Section Testbed.

Local Open Scope R_scope.

Lemma testbed_calls (indet1 indet2 indet3 indet4 : CalibrationFrame)
    (ac : AngleCompensator) :
  and_then (parseReply indet1 true testVec_binary ac) (fun ac1 =>
  and_then (parseReply indet2 false (bytes_of_string reply_hex) ac1) (fun ac2 =>
  and_then (parseAsciiReply indet3 reply_hex ac2) (fun ac3 =>
  parseAsciiReply indet4 reply_dec ac3)))
  = Returned 0 calibrated.
Proof.
  assert (E1 : parseReply indet1 true testVec_binary ac = Returned 0 calibrated).
  { rewrite parseReply_as_parseAsciiReply.
    change (binary_to_ascii testVec_binary)
      with "sRA MCAngleCompSin 00000765 FFFCC9B9 FFFFFF0B"%string.
    reflexivity. }
  assert (E2 : forall a, parseReply indet2 false (bytes_of_string reply_hex) a
                         = Returned 0 (store_calibration indet2)).
  { intros a. rewrite parseReply_as_parseAsciiReply.
    apply parseAsciiReply_other_count. cbn. discriminate. }
  assert (E3 : forall a, parseAsciiReply indet3 reply_hex a = Returned 0 calibrated).
  { intros a. unfold parseAsciiReply. now rewrite decode_reply_hex. }
  assert (E4 : forall a, parseAsciiReply indet4 reply_dec a = Returned 0 calibrated).
  { intros a. unfold parseAsciiReply. now rewrite decode_reply_dec. }
  rewrite E1. cbn [and_then]. rewrite E2. cbn [and_then].
  rewrite E3. cbn [and_then]. apply E4.
Qed.

(** X17.  The testbed prints the same table whatever the object and
    the unassigned locals hold at the start: none of its four parser
    calls ends in an exception, the table has 360 lines for the angles
    0 to 359, and it is computed with the calibration 0.1893, -21.0503,
    -0.0245 although the second call (ASCII mode of [parseReply]) fills
    the object from unassigned locals in between; no correction in the
    table exceeds 0.2138 in absolute value. *)
Theorem testbed_table
    (indet1 indet2 indet3 indet4 : CalibrationFrame) (ac : AngleCompensator) :
  testbed indet1 indet2 indet3 indet4 ac
  = inr (List.map (fun i => testbed_row calibrated (Z.of_nat i)) (List.seq 0 360))
  /\ List.length (List.map (fun i => testbed_row calibrated (Z.of_nat i))
                    (List.seq 0 360)) = 360%nat
  /\ (amplCorr calibrated = 0.1893
      /\ phaseCorrInDeg calibrated = -21.0503
      /\ offsetCorrInDeg calibrated = -0.0245)
  /\ forall i : Z,
       row_input (testbed_row calibrated i) = IZR i
       /\ Rabs (row_correction (testbed_row calibrated i)) <= 0.2138.
Proof.
  split; [unfold testbed; now rewrite testbed_calls|].
  split; [now rewrite length_map, length_seq|].
  assert (M : amplCorr calibrated = 0.1893
              /\ phaseCorrInDeg calibrated = -21.0503
              /\ offsetCorrInDeg calibrated = -0.0245)
    by (cbn; repeat split; lra).
  split; [exact M|]. intros i. split; [reflexivity|].
  cbn [testbed_row row_correction].
  apply Rle_trans with (1 := degree_correction_le calibrated (IZR i)).
  destruct M as (-> & _ & ->).
  rewrite (Rabs_right 0.1893), (Rabs_left (-0.0245)) by lra. lra.
Qed.

End Testbed.
